(** * Product-detection: the FAISS similarity-search service

    A shallow embedding of [faiss_service.py]: the two module globals
    [faiss_index] and [product_mapping], the catalog build
    ([build_faiss_index]), the three endpoints ([health_check],
    [search_product], [rebuild_index]) and the properties the design
    document states about them.

    Conventions.
    - Python [int] is [Z]; [len] is [Z.of_nat (length _)].
    - A float32 value is an element of a type [F]: the service only stores,
      compares and forwards scores, so the operations it needs are gathered
      in the class [FloatOps]; [Binary32] instantiates it with IEEE binary32.
    - Strings are [string] (bytes); [str.lower] is modelled on ASCII letters.
    - The file system, the JSON catalog, PIL and the torch model are the
      environment of the service, gathered in the record [World]. *)

From Stdlib Require Import ZArith Lia Ascii String SpecFloat.
From stdpp Require Import base decidable option list sorting strings gmap sets.

Local Open Scope string_scope.
Local Open Scope list_scope.
Local Open Scope Z_scope.

(** ** Configuration (module constants) *)

Definition EMBEDDING_DIM : Z := 576.
Definition CATALOG_PATH : string := "catalog/products.json".
Definition REFERENCES_DIR : string := "references".

(** ** Python string helpers used by the build *)

Module PyStr.

(** [c.lower()] on an ASCII letter; other bytes are left as they are. *)
Definition lower_ascii (c : ascii) : ascii :=
  let n := nat_of_ascii c in
  if ((65 <=? n)%nat && (n <=? 90)%nat)%bool then ascii_of_nat (n + 32) else c.

Fixpoint map_chars (f : ascii -> ascii) (s : string) : string :=
  match s with
  | EmptyString => EmptyString
  | String c s' => String (f c) (map_chars f s')
  end.

(** [s.replace(' ', '_')]: both patterns are one character long. *)
Definition replace_space (s : string) : string :=
  map_chars (fun c => if Ascii.eqb c " "%char then "_"%char else c) s.

Definition lower (s : string) : string := map_chars lower_ascii s.

(** [s.endswith(suf)] *)
Definition endswith (s suf : string) : bool :=
  let n := String.length s in
  let m := String.length suf in
  ((m <=? n)%nat && String.eqb (substring (n - m) m s) suf)%bool.

(** [s.endswith((a, b, c))] with a tuple of suffixes. *)
Definition endswith_any (s : string) (sufs : list string) : bool :=
  existsb (endswith s) sufs.

(** [os.path.join(a, b)] on POSIX: an absolute [b] discards [a]. *)
Definition path_join (a b : string) : string :=
  match b with
  | String "/"%char _ => b
  | _ =>
      if (String.eqb a "" || endswith a "/")%bool then a +:+ b
      else a +:+ "/" +:+ b
  end.

End PyStr.

(** ** Float32 values

    [f_norm], [f_div] and [f_gt0] are what [extract_embedding] applies to the
    feature vector; [f_dot] and [f_leb] are what an inner-product index needs
    to score and rank its vectors. *)

Class FloatOps (F : Type) := {
  f_norm : list F -> F;
  f_div : F -> F -> F;
  f_gt0 : F -> bool;
  f_dot : list F -> list F -> F;
  f_leb : F -> F -> bool
}.

(** ** Exceptions and HTTP answers *)

Inductive exn : Type :=
| JSONDecodeError      (* json.load on a malformed catalog *)
| NotADirectoryError   (* os.listdir on a path that is no directory *)
| ValueError           (* np.array/astype on ragged embeddings *)
| AssertionError       (* faiss: dimension check of add/search *)
| ImageError.          (* PIL or the model failed on the query image *)

Inductive outcome (A : Type) : Type :=
| Returned (a : A)
| Raised (e : exn).
Arguments Returned {A} a.
Arguments Raised {A} e.

Inductive detail : Type :=
| DetailText (msg : string)
| DetailExn (e : exn).      (* detail=str(e) *)

Inductive response (A : Type) : Type :=
| Ok200 (body : A)
| HTTPException (status_code : Z) (d : detail).
Arguments Ok200 {A} body.
Arguments HTTPException {A} status_code d.

Section Service.

Context {F : Type} `{!FloatOps F}.
Context {Price Image : Type}.

(** ** Data model *)

(** One element of the JSON catalog: ['id'] and ['price'] are read with
    [.get], ['name'] with a subscript. *)
Record CatalogEntry := {
  entry_id : option string;
  entry_name : string;
  entry_price : option Price
}.

(** One element of [product_mapping]. *)
Record MappingEntry := {
  product_id : string;
  product_name : string;
  ref_file : string;
  price : option Price
}.

(** One element of the ["matches"] list answered by [/search]. *)
Record Match := {
  match_product_id : string;
  match_product_name : string;
  similarity : F;
  match_ref_file : string;
  match_price : option Price
}.

(** [faiss.IndexFlatIP]: its dimension [d] and the vectors added so far. *)
Record IndexFlatIP := {
  index_d : Z;
  index_vectors : list (list F)
}.

Definition ntotal (idx : IndexFlatIP) : Z :=
  Z.of_nat (length (index_vectors idx)).

(** The module globals the endpoints share. *)
Record Globals := {
  faiss_index : option IndexFlatIP;
  product_mapping : list MappingEntry
}.

(** The state of a freshly imported module (lines 40-41). *)
Definition initial_globals : Globals :=
  {| faiss_index := None; product_mapping := [] |}.

(** ** The environment *)

Inductive fs_node : Type :=
| NoEntry
| RegularFile
| Directory (names : list string).

Inductive catalog_file : Type :=
| CatalogMissing
| CatalogInvalid
| CatalogLoaded (catalog : list CatalogEntry).

Record World := {
  (** [os.path.exists] and [os.listdir] below [REFERENCES_DIR] *)
  fs : string -> fs_node;
  (** the file at [CATALOG_PATH], through [os.path.exists] and [json.load] *)
  catalog_json : catalog_file;
  (** [Image.open(path)]; [None] when it raises *)
  image_open : string -> option Image;
  (** [Image.open(io.BytesIO(bytes))]; [None] when it raises *)
  image_decode : list Byte.byte -> option Image;
  (** preprocessing and the torch model, flattened to one vector;
      [None] when it raises (for instance, model not initialised) *)
  features : Image -> option (list F)
}.

Definition path_exists (w : World) (p : string) : bool :=
  match fs w p with NoEntry => false | _ => true end.

Definition listdir (w : World) (p : string) : outcome (list string) :=
  match fs w p with
  | Directory names => Returned names
  | _ => Raised NotADirectoryError
  end.

(** ** extract_embedding (lines 83-104) *)

Definition l2_normalize (embedding : list F) : list F :=
  let norm := f_norm embedding in
  if f_gt0 norm then (fun x => f_div x norm) <$> embedding else embedding.

Definition extract_embedding (w : World) (image : Image) : option (list F) :=
  l2_normalize <$> features w image.

(** ** build_faiss_index (lines 107-164) *)

Definition IMAGE_SUFFIXES : list string := [".jpg"; ".jpeg"; ".png"].

Definition derived_id (product : CatalogEntry) : string :=
  default (PyStr.lower (PyStr.replace_space (entry_name product)))
          (entry_id product).

(** The accumulators of the build: the local [embeddings] and the global
    [product_mapping], appended to in lock step. *)
Definition acc : Type := (list (list F) * list MappingEntry)%type.

(** Lines 137-149: one reference file, inside [try ... except Exception]. *)
Definition process_ref (w : World) (product : CatalogEntry)
    (pid ref_dir : string) (a : acc) (ref_file : string) : acc :=
  let ref_path := PyStr.path_join ref_dir ref_file in
  match image_open w ref_path ≫= extract_embedding w with
  | Some embedding =>
      (a.1 ++ [embedding],
       a.2 ++ [{| product_id := pid;
                  product_name := entry_name product;
                  ref_file := ref_file;
                  price := entry_price product |}])
  | None => a
  end.

(** Lines 124-149: the loop over the catalog. [listdir] is outside the
    [try], so its exception leaves the loop with what was appended so far. *)
Fixpoint catalog_loop (w : World) (catalog : list CatalogEntry) (a : acc)
    : acc * option exn :=
  match catalog with
  | [] => (a, None)
  | product :: rest =>
      let pid := derived_id product in
      let ref_dir := PyStr.path_join REFERENCES_DIR pid in
      if negb (path_exists w ref_dir) then catalog_loop w rest a
      else
        match listdir w ref_dir with
        | Raised e => (a, Some e)
        | Returned names =>
            let ref_files :=
              filter (fun f => Is_true (PyStr.endswith_any f IMAGE_SUFFIXES)) names in
            catalog_loop w rest
              (foldl (process_ref w product pid ref_dir) a ref_files)
        end
  end.

(** [np.array(embeddings).astype('float32')]: rows of one length make a
    matrix of that width, ragged rows raise. *)
Definition np_array (embeddings : list (list F)) : option (Z * list (list F)) :=
  match embeddings with
  | [] => Some (0, [])
  | e :: _ =>
      let width := Z.of_nat (length e) in
      if forallb (fun r => Z.of_nat (length r) =? width) embeddings
      then Some (width, embeddings) else None
  end.

Definition new_IndexFlatIP (d : Z) : IndexFlatIP :=
  {| index_d := d; index_vectors := [] |}.

(** [index.add(matrix)]: the wrapper asserts the width of the matrix. *)
Definition index_add (idx : IndexFlatIP) (matrix : Z * list (list F))
    : option IndexFlatIP :=
  if matrix.1 =? index_d idx
  then Some {| index_d := index_d idx;
               index_vectors := index_vectors idx ++ matrix.2 |}
  else None.

(** The Python function returns [None] at each of its three exits; the model
    keeps which exit was taken, as the log does (lines 115, 152, 163). *)
Inductive build_exit : Type :=
| CatalogNotFound
| NoEmbeddings
| IndexBuilt.

Definition build_faiss_index (w : World) (g : Globals)
    : outcome build_exit * Globals :=
  match catalog_json w with
  | CatalogMissing => (Returned CatalogNotFound, g)
  | CatalogInvalid => (Raised JSONDecodeError, g)
  | CatalogLoaded catalog =>
      (* embeddings = []; product_mapping = [] *)
      let '((embeddings, mapping), status) := catalog_loop w catalog ([], []) in
      let g1 := {| faiss_index := faiss_index g; product_mapping := mapping |} in
      match status with
      | Some e => (Raised e, g1)
      | None =>
          if Z.of_nat (length embeddings) =? 0 then (Returned NoEmbeddings, g1)
          else
            match np_array embeddings with
            | None => (Raised ValueError, g1)
            | Some embeddings_matrix =>
                let fresh := new_IndexFlatIP EMBEDDING_DIM in
                match index_add fresh embeddings_matrix with
                | None =>
                    (Raised AssertionError,
                     {| faiss_index := Some fresh; product_mapping := mapping |})
                | Some idx =>
                    (Returned IndexBuilt,
                     {| faiss_index := Some idx; product_mapping := mapping |})
                end
            end
      end
  end.

(** ** health_check (lines 175-183) *)

Record Health := {
  status : string;
  service : string;
  index_size : Z;
  products : Z
}.

(** [len(set(p['product_id'] for p in product_mapping))] *)
Definition distinct_products (mapping : list MappingEntry) : Z :=
  Z.of_nat (size (list_to_set (product_id <$> mapping) : gset string)).

(** [faiss_index.ntotal if faiss_index else 0]: an index object is truthy. *)
Definition index_size_of (g : Globals) : Z :=
  match faiss_index g with
  | Some idx => ntotal idx
  | None => 0
  end.

Definition health_check (g : Globals) : Health :=
  {| status := "ok";
     service := "FAISS Product Search";
     index_size := index_size_of g;
     products :=
       match product_mapping g with
       | [] => 0
       | _ => distinct_products (product_mapping g)
       end |}.

(** ** The nearest-neighbour search of the index *)

Definition f_ltb (a b : F) : bool := negb (f_leb b a).

(** Insert [x], which was added to the index before every element of [l],
    into the ranking [l]: it goes in front of the first element whose score
    is not strictly higher. *)
Fixpoint insert_desc (x : F * Z) (l : list (F * Z)) : list (F * Z) :=
  match l with
  | [] => [x]
  | y :: l' => if f_ltb x.1 y.1 then y :: insert_desc x l' else x :: l
  end.

Definition sort_desc (l : list (F * Z)) : list (F * Z) :=
  foldr insert_desc [] l.

(** The score of every stored vector against the query, with its label. *)
Definition scored (query : list F) (vectors : list (list F)) : list (F * Z) :=
  imap (fun i v => (f_dot query v, Z.of_nat i)) vectors.

(** Modelled from the spec: [IndexFlatIP.search] belongs to the faiss
    library, of which the repository has only the call (line 214). Section
    4.3 of the design describes it: an exact linear scan computing the inner
    product of the query against every stored embedding, returning the top
    [k] by descending score, ties broken by original insertion order (a
    stable sort); a query of another dimension is an error. *)
Definition index_search (idx : IndexFlatIP) (query : list F) (k : Z)
    : option (list (F * Z)) :=
  if Z.of_nat (length query) =? index_d idx
  then Some (take (Z.to_nat k) (sort_desc (scored query (index_vectors idx))))
  else None.

(** ** search_product (lines 186-250) *)

Definition in_range (mapping : list MappingEntry) (idx : Z) : bool :=
  negb ((idx <? 0) || (Z.of_nat (length mapping) <=? idx)).

Definition make_match (dist : F) (match_info : MappingEntry) : Match :=
  {| match_product_id := product_id match_info;
     match_product_name := product_name match_info;
     similarity := dist;
     match_ref_file := ref_file match_info;
     match_price := price match_info |}.

(** Lines 220-239: the loop over [zip(distances[0], indices[0])], with its
    [continue] and its [break]. *)
Fixpoint aggregate_loop (mapping : list MappingEntry) (k : Z)
    (raw : list (F * Z)) (results : list Match) (seen_products : gset string)
    : list Match :=
  match raw with
  | [] => results
  | (dist, idx) :: rest =>
      if negb (in_range mapping idx)
      then aggregate_loop mapping k rest results seen_products
      else
        match mapping !! Z.to_nat idx with
        | None => results
        | Some match_info =>
            let pid := product_id match_info in
            let '(results', seen') :=
              if bool_decide (pid ∈ seen_products)
              then (results, seen_products)
              else (results ++ [make_match dist match_info],
                    {[pid]} ∪ seen_products) in
            if k <=? Z.of_nat (length results') then results'
            else aggregate_loop mapping k rest results' seen'
        end
  end.

(** Lines 217-239, started from [results = []] and [seen_products = set()]. *)
Definition aggregate (mapping : list MappingEntry) (raw : list (F * Z)) (k : Z)
    : list Match :=
  aggregate_loop mapping k raw [] ∅.

Record SearchBody := {
  success : bool;
  matches : list Match;
  query_shape : Z * Z
}.

Definition NOT_INITIALIZED : detail := DetailText "FAISS index not initialized".

Definition search_product (w : World) (g : Globals)
    (image : list Byte.byte) (k : Z) : response SearchBody :=
  match faiss_index g with
  | None => HTTPException 503 NOT_INITIALIZED
  | Some idx =>
      match image_decode w image ≫= extract_embedding w with
      | None => HTTPException 500 (DetailExn ImageError)
      | Some query_embedding =>
          match index_search idx query_embedding (Z.min k (ntotal idx)) with
          | None => HTTPException 500 (DetailExn AssertionError)
          | Some raw =>
              Ok200 {| success := true;
                       matches := aggregate (product_mapping g) raw k;
                       query_shape := (1, Z.of_nat (length query_embedding)) |}
          end
      end
  end.

(** ** rebuild_index (lines 253-264) *)

Record RebuildBody := {
  rebuild_success : bool;
  rebuild_index_size : Z
}.

Definition rebuild_index (w : World) (g : Globals)
    : response RebuildBody * Globals :=
  match build_faiss_index w g with
  | (Returned _, g') =>
      (Ok200 {| rebuild_success := true;
                rebuild_index_size := index_size_of g' |}, g')
  | (Raised e, g') => (HTTPException 500 (DetailExn e), g')
  end.

(** ** Vocabulary of the properties *)

(** [m] is an in-range raw match whose reference belongs to product [pid]. *)
Definition refers_to (mapping : list MappingEntry) (pid : string) (m : F * Z) : bool :=
  (in_range mapping m.2)
  && bool_decide (product_id <$> (mapping !! Z.to_nat m.2) = Some pid).

(** The comparison of scores is a total preorder (as [<=] is on the
    float32 values that are not NaN). *)
Class FloatOrder : Prop := {
  f_leb_total (a b : F) : f_leb a b = false → f_leb b a = true;
  f_leb_trans (a b c : F) : f_leb a b = true → f_leb b c = true → f_leb a c = true
}.

(** [x] is ranked before [y]: its score is not lower, and on equal scores
    its label (its position of insertion) is the smaller one. *)
Definition ranks_before (x y : F * Z) : Prop :=
  f_leb y.1 x.1 = true ∧ (f_leb x.1 y.1 = true → x.2 < y.2).

Definition label_lt (x y : F * Z) : Prop := x.2 < y.2.

(** The references the design (section 4.2) asks of one catalog entry: none
    when its reference directory is absent; otherwise one per image file
    recognised by its extension that decodes and embeds, a failing file
    being skipped. *)
Definition spec_entry_refs (w : World) (product : CatalogEntry)
    : list (list F * MappingEntry) :=
  let pid := derived_id product in
  let ref_dir := PyStr.path_join REFERENCES_DIR pid in
  match fs w ref_dir with
  | Directory names =>
      omap (fun ref_file =>
              embedding ← image_open w (PyStr.path_join ref_dir ref_file)
                          ≫= extract_embedding w;
              Some (embedding,
                    {| product_id := pid;
                       product_name := entry_name product;
                       ref_file := ref_file;
                       price := entry_price product |}))
           (filter (fun f => Is_true (PyStr.endswith_any f IMAGE_SUFFIXES)) names)
  | _ => []
  end.

(** [os.listdir] can list the reference path of [product], or the path is
    absent: the path is not a plain file, on which it would raise. *)
Definition listable_entry (w : World) (product : CatalogEntry) : bool :=
  match fs w (PyStr.path_join REFERENCES_DIR (derived_id product)) with
  | RegularFile => false
  | _ => true
  end.

Definition listable (w : World) (catalog : list CatalogEntry) : bool :=
  forallb (listable_entry w) catalog.

(** The catalog entries in front of the first one that cannot be listed:
    the whole catalog when [listable] holds. *)
Fixpoint listed_prefix (w : World) (catalog : list CatalogEntry)
    : list CatalogEntry :=
  match catalog with
  | [] => []
  | product :: rest =>
      if listable_entry w product then product :: listed_prefix w rest else []
  end.

(** The invariant of the data model (section 3): as many vectors as mapping
    entries, all of the configured dimension. *)
Definition index_matches_mapping (g : Globals) : Prop :=
  match faiss_index g with
  | Some idx =>
      ntotal idx = Z.of_nat (length (product_mapping g))
      ∧ Forall (fun v => Z.of_nat (length v) = EMBEDDING_DIM) (index_vectors idx)
  | None => True
  end.

End Service.

(** ** A small concrete deployment

    Integers stand in for float32 values (largest absolute value as norm,
    truncating division), images are named by strings, prices are in cents.
    The catalog has a mug with three files in its reference directory and a
    tea cup whose id is derived from its name. *)

Module Demo.

#[global] Instance int_ops : FloatOps Z := {|
  f_norm v := foldr (fun x m => Z.max (Z.abs x) m) 0 v;
  f_div := Z.quot;
  f_gt0 n := 0 <? n;
  f_dot u v := foldr Z.add 0 (zip_with Z.mul u v);
  f_leb := Z.leb
|}.

Definition mug : @CatalogEntry Z :=
  {| entry_id := Some "mug"; entry_name := "Mug"; entry_price := Some 999 |}.
Definition cup : @CatalogEntry Z :=
  {| entry_id := None; entry_name := "Tea Cup"; entry_price := None |}.

Definition open_by_name (p : string) : option string :=
  if String.eqb p "references/mug/A.jpg" then Some "A"
  else if String.eqb p "references/tea_cup/B.png" then Some "B"
  else None.

Definition decode_upload (b : list Byte.byte) : option string :=
  match b with
  | [] => None
  | _ => Some "A"
  end.

(** Image "A" points along the first axis, every other image along the
    second one. *)
Definition model (img : string) : option (list Z) :=
  Some (if String.eqb img "A" then 4 :: replicate 575 0
        else 0 :: 7 :: replicate 574 0).

Definition world_with (tree : string -> fs_node) : @World Z Z string :=
  {| fs := tree;
     catalog_json := CatalogLoaded [mug; cup];
     image_open := open_by_name;
     image_decode := decode_upload;
     features := model |}.

(** The mug has references (one of them unreadable, one no image), the tea
    cup has no directory. *)
Definition tree_mug_only (p : string) : fs_node :=
  if String.eqb p "references/mug"
  then Directory ["A.jpg"; "notes.txt"; "broken.png"]
  else NoEntry.

(** Both products have references. *)
Definition tree_both (p : string) : fs_node :=
  if String.eqb p "references/mug" then Directory ["A.jpg"]
  else if String.eqb p "references/tea_cup" then Directory ["B.png"]
  else NoEntry.

(** The references were removed. *)
Definition tree_empty (p : string) : fs_node := NoEntry.

(** The path of the tea cup's references is a plain file. *)
Definition tree_cup_is_file (p : string) : fs_node :=
  if String.eqb p "references/mug" then Directory ["A.jpg"]
  else if String.eqb p "references/tea_cup" then RegularFile
  else NoEntry.

Definition unit_x : list Z := 1 :: replicate 575 0.
Definition unit_y : list Z := 0 :: 1 :: replicate 574 0.

Definition mug_ref : @MappingEntry Z :=
  {| product_id := "mug"; product_name := "Mug";
     ref_file := "A.jpg"; price := Some 999 |}.

(** The globals after a build in [world_with tree_mug_only]. *)
Definition ready : @Globals Z Z :=
  {| faiss_index := Some {| index_d := 576; index_vectors := [unit_x] |};
     product_mapping := [mug_ref] |}.

Definition mug_ref_b : @MappingEntry Z :=
  {| product_id := "mug"; product_name := "Mug";
     ref_file := "B.jpg"; price := Some 999 |}.
Definition cup_ref : @MappingEntry Z :=
  {| product_id := "tea_cup"; product_name := "Tea Cup";
     ref_file := "B.png"; price := None |}.

(** A mapping with two references of the mug and one of the tea cup, and
    raw matches against it: two labels are out of range. *)
Definition three_refs : list (@MappingEntry Z) := [mug_ref; mug_ref_b; cup_ref].
Definition raw_matches : list (Z * Z) :=
  [(9, 0); (8, 7); (8, -1); (7, 1); (5, 2); (4, 2)].

(** An index in which the second and the third vector tie on a query
    along the first axis. *)
Definition tied_index : @IndexFlatIP Z :=
  {| index_d := 576; index_vectors := [unit_y; unit_x; unit_x] |}.

#[global] Instance int_order : FloatOrder (F := Z).
Proof.
  split; cbn.
  - intros a b Hab. apply Z.leb_le. apply Z.leb_gt in Hab. lia.
  - intros a b c Hab Hbc. apply Z.leb_le. apply Z.leb_le in Hab, Hbc. lia.
Qed.

End Demo.

(** ** Start-up, sequences of rebuilds, and the aggregation as a list function *)

Section ServiceTraces.

Context {F : Type} `{!FloatOps F} {Price Image : Type}.

(** startup_event (lines 167-172): the model is loaded (from then on
    [features] answers), and the first build runs on the globals of the
    freshly imported module. An exception of the build is not caught. *)
Definition startup_event (w : @World F Price Image)
    : outcome build_exit * @Globals F Price :=
  build_faiss_index w initial_globals.

(** The globals after a sequence of POST /index/rebuild requests, each
    served in the world of its time. *)
Definition after_rebuilds (ws : list (@World F Price Image))
    (g : @Globals F Price) : @Globals F Price :=
  foldl (fun g w => (rebuild_index w g).2) g ws.

(** The raw matches that pass the range check of line 221, each with the
    mapping entry it points to. *)
Definition candidates (mapping : list (@MappingEntry Price))
    (raw : list (F * Z)) : list (@Match F Price) :=
  omap (fun m : F * Z =>
          if in_range mapping m.2
          then make_match m.1 <$> (mapping !! Z.to_nat m.2)
          else None) raw.

(** Keep the first match of every product that is not in [seen]. *)
Fixpoint first_per_product (seen : gset string) (ms : list (@Match F Price))
    : list (@Match F Price) :=
  match ms with
  | [] => []
  | r :: rest =>
      if bool_decide (match_product_id r ∈ seen)
      then first_per_product seen rest
      else r :: first_per_product ({[match_product_id r]} ∪ seen) rest
  end.

(** Whatever index there is has the configured dimension, and so has every
    vector in it. *)
Definition well_dimensioned (g : @Globals F Price) : Prop :=
  match faiss_index g with
  | Some idx =>
      index_d idx = EMBEDDING_DIM
      ∧ Forall (fun v => Z.of_nat (length v) = EMBEDDING_DIM) (index_vectors idx)
  | None => True
  end.

(** Index and mapping belong together: no index and an empty mapping, or a
    non-empty index with one mapping entry per vector. *)
Definition consistent (g : @Globals F Price) : Prop :=
  match faiss_index g with
  | Some idx => 0 < ntotal idx ∧ index_matches_mapping g
  | None => product_mapping g = []
  end.

End ServiceTraces.

(** ** The float32 values of numpy

    IEEE 754 binary32, as the standard library specifies it: 24 bits of
    mantissa, infinities at exponent 128. [np.linalg.norm] of a vector is
    [sqrt(x.dot(x))] in the vector's own type; numpy leaves the order of the
    summation to BLAS, the model sums from left to right. *)

Module Binary32.

Definition prec : Z := 24.
Definition emax : Z := 128.

Definition zero : spec_float := S754_zero false.
Definition add : spec_float -> spec_float -> spec_float := SFadd prec emax.
Definition mul : spec_float -> spec_float -> spec_float := SFmul prec emax.
Definition div : spec_float -> spec_float -> spec_float := SFdiv prec emax.
Definition sqrt : spec_float -> spec_float := SFsqrt prec emax.

Definition dot (u v : list spec_float) : spec_float :=
  foldl add zero (zip_with mul u v).

#[global] Instance float32_ops : FloatOps spec_float := {|
  f_norm v := sqrt (dot v v);
  f_div := div;
  f_gt0 n := SFltb zero n;
  f_dot := dot;
  f_leb := SFleb
|}.


Definition three : spec_float := S754_finite false 12582912 (-22).
Definition four : spec_float := S754_finite false 8388608 (-21).
Definition one_minus_tolerance : spec_float := S754_finite false 16777048 (-24).
Definition one_plus_tolerance : spec_float := S754_finite false 8388692 (-23).

End Binary32.

(** ** One search against one rebuild on the event loop

    Both handlers are coroutines ([async def]) of one event loop, so they
    change hands at an [await] only. [build_faiss_index] has none: a rebuild
    runs in one piece. The search has one, [await image.read()] (line 206),
    after the [None] test of line 201 and before every other read of the
    globals. *)

Section EventLoop.

Context {F : Type} `{!FloatOps F} {Price Image : Type}.

(** Lines 207-250: the search from its [await] on, on the globals it finds
    then. Without an index, line 214 fails on [None] and the handler answers
    500. *)
Definition search_after_await (w : @World F Price Image) (g : @Globals F Price)
    (image : list Byte.byte) (k : Z) : response (@SearchBody F Price) :=
  match image_decode w image ≫= extract_embedding w with
  | None => HTTPException 500 (DetailExn ImageError)
  | Some query_embedding =>
      match faiss_index g with
      | None =>
          HTTPException 500
            (DetailText "'NoneType' object has no attribute 'search'")
      | Some idx =>
          match index_search idx query_embedding (Z.min k (ntotal idx)) with
          | None => HTTPException 500 (DetailExn AssertionError)
          | Some raw =>
              Ok200 {| success := true;
                       matches := aggregate (product_mapping g) raw k;
                       query_shape := (1, Z.of_nat (length query_embedding)) |}
          end
      end
  end.

(** Where the rebuild runs with respect to the search. *)
Inductive schedule : Type :=
| SearchThenRebuild
| RebuildInsideSearch     (* at the search's await *)
| RebuildThenSearch.

(** The answer of a search served in the world [ws] while a rebuild is
    served in the world [wr], from the globals [g]. *)
Definition search_racing_rebuild (s : schedule)
    (wr ws : @World F Price Image) (g : @Globals F Price)
    (image : list Byte.byte) (k : Z) : response (@SearchBody F Price) :=
  let g1 := (rebuild_index wr g).2 in
  match s with
  | SearchThenRebuild => search_product ws g image k
  | RebuildThenSearch => search_product ws g1 image k
  | RebuildInsideSearch =>
      match faiss_index g with
      | None => HTTPException 503 NOT_INITIALIZED
      | Some _ => search_after_await ws g1 image k
      end
  end.

End EventLoop.

(** ** A catalog that changed under a running service

    The tea cup now comes first and has its reference; the path of the mug's
    references has become a plain file. *)

Module Changed.

Definition tree (p : string) : @fs_node :=
  if String.eqb p "references/tea_cup" then Directory ["B.png"]
  else if String.eqb p "references/mug" then RegularFile
  else NoEntry.

Definition world : @World Z Z string :=
  {| fs := tree;
     catalog_json := CatalogLoaded [Demo.cup; Demo.mug];
     image_open := Demo.open_by_name;
     image_decode := Demo.decode_upload;
     features := Demo.model |}.

(** What an index of the tea cup's reference alone holds. *)
Definition only_cup : @Globals Z Z :=
  {| faiss_index := Some {| index_d := 576; index_vectors := [Demo.unit_y] |};
     product_mapping := [Demo.cup_ref] |}.

End Changed.

(** * Properties *)

Section Aggregation.

Context {F : Type} `{!FloatOps F} {Price : Type}.
Implicit Types (mapping : list (@MappingEntry Price)) (raw : list (F * Z)).
Implicit Types (results : list (@Match F Price)) (seen : gset string).

Lemma in_range_lookup mapping idx :
  in_range mapping idx = true → is_Some (mapping !! Z.to_nat idx).
Proof.
  unfold in_range. intros H. apply lookup_lt_is_Some.
  apply negb_true_iff, orb_false_iff in H as [H1 H2]. lia.
Qed.

Lemma aggregate_loop_skips mapping k raw results seen :
  aggregate_loop mapping k (List.filter (fun m => in_range mapping m.2) raw) results seen
  = aggregate_loop mapping k raw results seen.
Proof.
  revert results seen. induction raw as [|[dist idx] rest IH]; intros results seen.
  - reflexivity.
  - cbn [List.filter snd]. destruct (in_range mapping idx) eqn:Hr.
    + cbn [aggregate_loop]. rewrite Hr. cbn [negb].
      destruct (mapping !! Z.to_nat idx); [|reflexivity].
      destruct (bool_decide _); cbn zeta;
        destruct (_ <=? _); auto.
    + cbn [aggregate_loop]. rewrite Hr. cbn [negb]. apply IH.
Qed.

(** What the loop keeps true from one raw match to the next. *)
Lemma aggregate_loop_inv mapping k raw : ∀ results seen,
  (∀ p, p ∈ seen ↔ p ∈ match_product_id <$> results) →
  NoDup (match_product_id <$> results) →
  Z.of_nat (length results) < k →
  let out := aggregate_loop mapping k raw results seen in
  Z.of_nat (length out) <= k
  ∧ NoDup (match_product_id <$> out)
  ∧ ∀ r, r ∈ out →
      r ∈ results
      ∨ ((match_product_id r ∉ seen)
         ∧ ∃ dist idx match_info,
             List.find (refers_to mapping (match_product_id r)) raw = Some (dist, idx)
             ∧ mapping !! Z.to_nat idx = Some match_info
             ∧ r = make_match dist match_info).
Proof.
  induction raw as [|[dist idx] rest IH]; intros results seen Hseen Hnd Hlt; cbn zeta.
  - cbn. split; [lia|]. split; [done|]. auto.
  - cbn [aggregate_loop]. destruct (in_range mapping idx) eqn:Hr; cbn [negb].
    2:{ specialize (IH results seen Hseen Hnd Hlt). cbn zeta in IH.
        destruct IH as (Hlen & Hnd' & Hin). split; [done|]. split; [done|].
        intros r Hr'. destruct (Hin r Hr') as [?|(Hns & d & i & mi & Hf & Hl & ->)]; [by left|].
        right. split; [done|]. exists d, i, mi. split; [|done].
        cbn [List.find]. unfold refers_to at 1. cbn [snd]. by rewrite Hr. }
    destruct (in_range_lookup _ _ Hr) as [mi Hmi]. rewrite Hmi.
    assert (Hhead : ∀ p, refers_to mapping p (dist, idx) = bool_decide (product_id mi = p)).
    { intros p. unfold refers_to. cbn [snd]. rewrite Hr, Hmi. cbn.
      apply bool_decide_ext. split; congruence. }
    destruct (bool_decide (product_id mi ∈ seen)) eqn:Hmem; cbn zeta.
    + apply bool_decide_eq_true in Hmem.
      destruct (Z.leb_spec k (Z.of_nat (length results))); [lia|].
      specialize (IH results seen Hseen Hnd Hlt). cbn zeta in IH.
      destruct IH as (Hlen & Hnd' & Hin). split; [done|]. split; [done|].
      intros r Hr'. destruct (Hin r Hr') as [?|(Hns & d & i & mi' & Hf & Hl & ->)]; [by left|].
      right. split; [done|]. exists d, i, mi'. split; [|done].
      cbn [List.find]. rewrite Hhead. rewrite bool_decide_eq_false_2; [done|].
      intros Heq. apply Hns. by rewrite <- Heq.
    + apply bool_decide_eq_false in Hmem.
      set (results' := results ++ [make_match dist mi]).
      assert (Hnd' : NoDup (match_product_id <$> results')).
      { unfold results'. rewrite fmap_app. apply NoDup_app. split; [done|].
        split; [|apply NoDup_singleton].
        intros p Hp Hp'. apply list_elem_of_singleton in Hp'. subst p.
        apply Hmem, Hseen, Hp. }
      assert (Hnew : ∀ r, r ∈ results' → (r ∈ results)
                ∨ ((match_product_id r ∉ seen)
                   ∧ ∃ dist0 idx0 match_info,
                       List.find (refers_to mapping (match_product_id r)) ((dist, idx) :: rest)
                         = Some (dist0, idx0)
                       ∧ mapping !! Z.to_nat idx0 = Some match_info
                       ∧ r = make_match dist0 match_info)).
      { intros r Hr'. unfold results' in Hr'. apply elem_of_app in Hr' as [?|Hr']; [by left|].
        apply list_elem_of_singleton in Hr'. subst r. right. split; [done|].
        exists dist, idx, mi. split; [|done]. cbn [List.find]. rewrite Hhead.
        by rewrite bool_decide_eq_true_2. }
      destruct (Z.leb_spec k (Z.of_nat (length results'))) as [Hge|Hlt'].
      * split; [|done]. unfold results' in *. rewrite length_app in *. cbn in *. lia.
      * assert (Hseen' : ∀ p, p ∈ {[product_id mi]} ∪ seen ↔ p ∈ match_product_id <$> results').
        { intros p. unfold results'. rewrite fmap_app, elem_of_app, elem_of_union, Hseen.
          cbn. rewrite list_elem_of_singleton, elem_of_singleton. tauto. }
        specialize (IH results' _ Hseen' Hnd' Hlt'). cbn zeta in IH.
        destruct IH as (Hlen & Hnd'' & Hin). split; [done|]. split; [done|].
        intros r Hr'. destruct (Hin r Hr') as [?|(Hns & d & i & mi' & Hf & Hl & ->)]; [by apply Hnew|].
        assert (Hpid : product_id mi ≠ match_product_id (make_match d mi')).
        { intros Heq. apply Hns. rewrite <- Heq. apply elem_of_union_l.
          by apply elem_of_singleton. }
        right. split; [intros Hs; apply Hns; by apply elem_of_union_r|].
        exists d, i, mi'. split; [|done].
        cbn [List.find]. rewrite Hhead. by rewrite bool_decide_eq_false_2.
Qed.

(** C3. For every sequence of raw matches and every positive [k], the
    aggregation step returns at most [k] results, no two of them with the
    same product id; every result carries the score and the reference of
    the first in-range raw match of its product; and raw matches whose
    index is out of range are skipped: dropping them beforehand changes
    nothing. *)
Theorem aggregate_at_most_k_distinct_first mapping raw k :
  0 < k →
  Z.of_nat (length (aggregate mapping raw k)) <= k
  ∧ NoDup (match_product_id <$> aggregate mapping raw k)
  ∧ (∀ r, r ∈ aggregate mapping raw k →
       ∃ dist idx match_info,
         List.find (refers_to mapping (match_product_id r)) raw = Some (dist, idx)
         ∧ mapping !! Z.to_nat idx = Some match_info
         ∧ r = make_match dist match_info)
  ∧ aggregate mapping (List.filter (fun m => in_range mapping m.2) raw) k
    = aggregate mapping raw k.
Proof.
  intros Hk. unfold aggregate.
  destruct (aggregate_loop_inv mapping k raw [] ∅) as (Hlen & Hnd & Hin).
  - intros p. cbn. split; [intros []%not_elem_of_empty|intros []%elem_of_nil].
  - constructor.
  - cbn. lia.
  - split; [done|]. split; [done|]. split; [|apply aggregate_loop_skips].
    intros r Hr. destruct (Hin r Hr) as [Hnil|(_ & H)]; [|done].
    by apply elem_of_nil in Hnil.
Qed.

End Aggregation.

Section Ranking.

Context {F : Type} `{!FloatOps F}.
Implicit Types (x y : F * Z) (l : list (F * Z)).

Lemma elem_of_insert_desc x y l : y ∈ insert_desc x l ↔ y = x ∨ y ∈ l.
Proof.
  induction l as [|z l IH]; cbn.
  - rewrite list_elem_of_singleton, elem_of_nil. tauto.
  - destruct (f_ltb x.1 z.1); rewrite !elem_of_cons; [rewrite IH|]; tauto.
Qed.

Lemma length_insert_desc x l : length (insert_desc x l) = S (length l).
Proof.
  induction l as [|z l IH]; cbn; [done|].
  destruct (f_ltb x.1 z.1); cbn; congruence.
Qed.

Lemma length_sort_desc l : length (sort_desc l) = length l.
Proof.
  induction l as [|z l IH]; cbn; [done|].
  rewrite length_insert_desc. unfold sort_desc in IH. congruence.
Qed.

Lemma elem_of_sort_desc y l : y ∈ sort_desc l ↔ y ∈ l.
Proof.
  induction l as [|z l IH]; cbn; [done|].
  rewrite elem_of_insert_desc, elem_of_cons. unfold sort_desc in IH. by rewrite IH.
Qed.

Lemma scored_labels_increase (query : list F) (vectors : list (list F)) (n : nat) :
  StronglySorted label_lt
    (imap (fun i v => (f_dot query v, Z.of_nat (n + i))) vectors).
Proof.
  revert n. induction vectors as [|v vs IH]; intros n; [constructor|].
  rewrite imap_cons. constructor.
  - erewrite imap_ext; [apply (IH (S n))|].
    intros i w _. cbn. do 2 f_equal. lia.
  - apply Forall_forall. intros y Hy.
    apply elem_of_lookup_imap_1 in Hy as (i & w & -> & _).
    unfold label_lt. cbn. lia.
Qed.

Context `{!FloatOrder}.

Lemma insert_desc_sorted x l :
  StronglySorted ranks_before l →
  Forall (label_lt x) l →
  StronglySorted ranks_before (insert_desc x l).
Proof.
  induction 1 as [|z l Hl IH Hz]; intros Hx; cbn.
  - repeat constructor.
  - apply Forall_cons in Hx as [Hxz Hxl]. unfold f_ltb.
    destruct (f_leb z.1 x.1) eqn:Hzx; cbn.
    + (* z is not strictly better: x goes in front of it *)
      constructor; [by constructor|].
      constructor; [by split|].
      apply Forall_forall. intros y Hy.
      rewrite Forall_forall in Hz, Hxl.
      destruct (Hz y Hy) as [Hyz _]. split.
      * eapply f_leb_trans; eassumption.
      * intros _. by apply Hxl.
    + (* z is strictly better: it stays in front *)
      constructor; [by apply IH|].
      apply Forall_forall. intros y Hy.
      apply elem_of_insert_desc in Hy as [->|Hy].
      * split; [by apply f_leb_total|]. congruence.
      * rewrite Forall_forall in Hz. by apply Hz.
Qed.

Lemma sort_desc_sorted l :
  StronglySorted label_lt l → StronglySorted ranks_before (sort_desc l).
Proof.
  induction 1 as [|z l Hl IH Hz]; cbn; [constructor|].
  apply insert_desc_sorted; [exact IH|].
  apply Forall_forall. intros y Hy.
  change (y ∈ sort_desc l) in Hy. rewrite elem_of_sort_desc in Hy.
  rewrite Forall_forall in Hz. by apply Hz.
Qed.

Lemma take_sorted (R : F * Z → F * Z → Prop) (n : nat) l :
  StronglySorted R l → StronglySorted R (take n l).
Proof.
  intros Hsorted. rewrite <- (take_drop n l) in Hsorted.
  by apply StronglySorted_app_1_l in Hsorted.
Qed.

(** C4. On an index of [ntotal] vectors, for a query of the index's
    dimension and a positive [k], the nearest-neighbour search called at
    line 214 answers a sequence of at most [min k ntotal] matches in which
    every match is ranked before all later ones: scores never increase, and
    equal scores come in the order of insertion. *)
Theorem search_sorted_stable_bounded (idx : IndexFlatIP) (query : list F) (k : Z) :
  0 < k →
  Z.of_nat (length query) = index_d idx →
  ∃ raw,
    index_search idx query (Z.min k (ntotal idx)) = Some raw
    ∧ Z.of_nat (length raw) <= Z.min k (ntotal idx)
    ∧ StronglySorted ranks_before raw.
Proof.
  intros Hk Hd. unfold index_search.
  rewrite (proj2 (Z.eqb_eq _ _) Hd). eexists. split; [reflexivity|]. split.
  - rewrite length_take, length_sort_desc. unfold scored. rewrite length_imap.
    unfold ntotal. lia.
  - apply take_sorted, sort_desc_sorted.
    apply (scored_labels_increase query (index_vectors idx) 0).
Qed.

End Ranking.

Section Build.

Context {F : Type} `{!FloatOps F} {Price Image : Type}.
Implicit Types (w : @World F Price Image) (g : @Globals F Price).
Implicit Types (catalog : list (@CatalogEntry Price)).
Implicit Types (a : @acc F Price).

(** The reference files of one product: each file that embeds appends one
    pair, each file that fails appends nothing. *)
Lemma process_refs_appends w product pid ref_dir ref_files : ∀ a,
  let kept :=
    omap (fun ref_file =>
            embedding ← image_open w (PyStr.path_join ref_dir ref_file)
                        ≫= extract_embedding w;
            Some (embedding,
                  {| product_id := pid;
                     product_name := entry_name product;
                     ref_file := ref_file;
                     price := entry_price product |}))
         ref_files in
  foldl (process_ref w product pid ref_dir) a ref_files
  = (a.1 ++ kept.*1, a.2 ++ kept.*2).
Proof.
  induction ref_files as [|f files IH]; intros [embs pm]; cbn zeta.
  - cbn. by rewrite !app_nil_r.
  - cbn [foldl]. rewrite IH. unfold process_ref. cbn [omap list_omap].
    destruct (image_open w (PyStr.path_join ref_dir f) ≫= extract_embedding w)
      as [e|]; cbn; [|done].
    by rewrite <- !app_assoc.
Qed.

Lemma catalog_loop_refines w catalog : ∀ a,
  let refs := listed_prefix w catalog ≫= spec_entry_refs w in
  catalog_loop w catalog a
  = ((a.1 ++ refs.*1, a.2 ++ refs.*2),
     if listable w catalog then None else Some NotADirectoryError).
Proof.
  induction catalog as [|product rest IH]; intros [embs pm]; cbn zeta.
  - cbn. by rewrite !app_nil_r.
  - cbn [catalog_loop listed_prefix]. change (listable w (product :: rest))
      with (listable_entry w product && listable w rest).
    assert (Hrefs := eq_refl (spec_entry_refs w product)).
    unfold spec_entry_refs at 2 in Hrefs.
    unfold path_exists, listdir, listable_entry.
    destruct (fs w (PyStr.path_join REFERENCES_DIR (derived_id product)))
      as [| |names]; cbn [negb andb].
    + rewrite bind_cons, Hrefs. apply IH.
    + cbn. by rewrite !app_nil_r.
    + rewrite bind_cons, !fmap_app, Hrefs.
      rewrite process_refs_appends, IH. cbn [fst snd].
      by rewrite !app_assoc.
Qed.

Lemma listed_prefix_all w catalog :
  listable w catalog = true → listed_prefix w catalog = catalog.
Proof.
  induction catalog as [|product rest IH]; [done|].
  cbn [listable forallb listed_prefix]. intros [Hhead Hrest]%andb_true_iff.
  rewrite Hhead. f_equal. by apply IH.
Qed.

(** The two accumulators grow in lock step, also when the loop is left by
    an exception. *)
Lemma catalog_loop_lockstep w catalog : ∀ a,
  length a.1 = length a.2 →
  let r := catalog_loop w catalog a in
  length r.1.1 = length r.1.2.
Proof.
  induction catalog as [|product rest IH]; intros a Ha; cbn zeta; [done|].
  cbn [catalog_loop]. unfold path_exists, listdir.
  destruct (fs w _) as [| |names]; cbn [negb]; [by apply IH|done|].
  apply IH. rewrite process_refs_appends. cbn [fst snd].
  rewrite !length_app, !length_fmap. lia.
Qed.

(** C6. In every build of a loaded catalog, an absent reference directory
    skips its catalog entry and a file that fails to decode or embed skips
    that file only; neither stops the loop. The embeddings and the mapping
    the build has accumulated are those of every other image of every
    product the loop reached, in catalog order, and it reaches the whole
    catalog unless [os.listdir] raises on a reference path that is a plain
    file. *)
Theorem build_skips_failures_and_continues w g catalog :
  catalog_json w = CatalogLoaded catalog →
  let refs := listed_prefix w catalog ≫= spec_entry_refs w in
  catalog_loop w catalog ([], [])
  = ((refs.*1, refs.*2),
     if listable w catalog then None else Some NotADirectoryError)
  ∧ product_mapping (build_faiss_index w g).2 = refs.*2
  ∧ (listable w catalog = true → listed_prefix w catalog = catalog).
Proof.
  intros Hc refs.
  pose proof (catalog_loop_refines w catalog ([], [])) as Hloop.
  cbn zeta in Hloop. cbn [fst snd app] in Hloop.
  split; [exact Hloop|]. split; [|apply listed_prefix_all].
  unfold build_faiss_index. rewrite Hc, Hloop. fold refs.
  destruct (listable w catalog); [|done].
  destruct (Z.of_nat (length refs.*1) =? 0); [done|].
  destruct (np_array refs.*1); [|done].
  by destruct (index_add _ _).
Qed.

Lemma np_array_rows (embeddings : list (list F)) width rows :
  np_array embeddings = Some (width, rows) →
  rows = embeddings
  ∧ Forall (fun v => Z.of_nat (length v) = width) embeddings.
Proof.
  unfold np_array. destruct embeddings as [|e rest].
  - intros [= <- <-]. by split.
  - destruct (forallb _ _) eqn:Hall; intros [= <- <-]. split; [done|].
    apply Forall_forall. intros v Hv.
    rewrite forallb_forall in Hall. apply Z.eqb_eq, Hall.
    by apply list_elem_of_In.
Qed.

(** Right after a build that ran to its last line, the index has one
    vector per mapping entry, all of dimension [EMBEDDING_DIM]. *)
Lemma build_success_matches w g g' :
  build_faiss_index w g = (Returned IndexBuilt, g') →
  index_matches_mapping g'
  ∧ ∃ idx, faiss_index g' = Some idx
           ∧ index_d idx = EMBEDDING_DIM ∧ 0 < ntotal idx.
Proof.
  unfold build_faiss_index. destruct (catalog_json w) as [| |catalog]; [done..|].
  pose proof (catalog_loop_lockstep w catalog ([], []) eq_refl) as Hlock.
  cbn zeta in Hlock.
  destruct (catalog_loop w catalog ([], [])) as [[embs pm] [e|]]; [done|].
  cbn [fst snd] in Hlock.
  destruct (Z.eqb_spec (Z.of_nat (length embs)) 0) as [|Hne]; [done|].
  destruct (np_array embs) as [[width rows]|] eqn:Hnp; [|done].
  apply np_array_rows in Hnp as [-> Hrows].
  unfold index_add. cbn [fst snd new_IndexFlatIP index_d index_vectors].
  destruct (Z.eqb_spec width EMBEDDING_DIM) as [->|]; [|done].
  intros [= <-]. unfold index_matches_mapping, ntotal. cbn.
  split; [split; [lia|done]|]. eexists. split; [done|]. cbn. split; [done|lia].
Qed.

(** Whatever a build does, it leaves the vector index as it was or puts a
    fresh one in its place. *)
Lemma build_index_kept_or_fresh w g :
  let g' := (build_faiss_index w g).2 in
  faiss_index g' = faiss_index g
  ∨ ∃ vectors,
      faiss_index g' = Some {| index_d := EMBEDDING_DIM; index_vectors := vectors |}
      ∧ (length vectors ≤ length (product_mapping g'))%nat.
Proof.
  unfold build_faiss_index. destruct (catalog_json w) as [| |catalog]; [by left..|].
  pose proof (catalog_loop_lockstep w catalog ([], []) eq_refl) as Hlock.
  cbn zeta in Hlock.
  destruct (catalog_loop w catalog ([], [])) as [[embs pm] [e|]]; [by left|].
  cbn [fst snd] in Hlock.
  destruct (Z.of_nat (length embs) =? 0); [by left|].
  destruct (np_array embs) as [[width rows]|] eqn:Hnp; [|by left].
  apply np_array_rows in Hnp as [-> _].
  unfold index_add. cbn [fst snd new_IndexFlatIP index_d index_vectors].
  destruct (width =? EMBEDDING_DIM); right; eexists; (split; [reflexivity|]);
    cbn; lia.
Qed.

End Build.

Section Endpoints.

Context {F : Type} `{!FloatOps F} {Price Image : Type}.
Implicit Types (w : @World F Price Image) (g : @Globals F Price).

Lemma build_twice w g :
  build_faiss_index w (build_faiss_index w g).2 = build_faiss_index w g.
Proof.
  unfold build_faiss_index.
  destruct (catalog_json w) as [| |catalog] eqn:Hc; cbn; rewrite ?Hc; [done..|].
  destruct (catalog_loop w catalog ([], [])) as [[embs pm] [e|]]; cbn; [done|].
  destruct (Z.of_nat (length embs) =? 0); cbn; [done|].
  destruct (np_array embs) as [matrix|]; cbn; [|done].
  by destruct (index_add _ matrix).
Qed.

(** C9. Rebuilding a second time from the same catalog, references and
    embedding function changes nothing: the vector index and the mapping
    after the second rebuild are equal to those after the first (so is the
    set of products), and the endpoint gives the same answer. *)
Theorem rebuild_twice_same_index w g :
  let first := rebuild_index w g in
  let second := rebuild_index w first.2 in
  faiss_index second.2 = faiss_index first.2
  ∧ product_mapping second.2 = product_mapping first.2
  ∧ (list_to_set (product_id <$> product_mapping second.2) : gset string)
    = list_to_set (product_id <$> product_mapping first.2)
  ∧ second.1 = first.1.
Proof.
  cbn zeta.
  assert (Hsame : rebuild_index w (rebuild_index w g).2 = rebuild_index w g).
  { unfold rebuild_index. pose proof (build_twice w g) as Htwice.
    destruct (build_faiss_index w g) as [[x|e] g1]; cbn in *; by rewrite Htwice. }
  by rewrite Hsame.
Qed.

(** C5. While there is no index ([faiss_index] is [None]), every search
    fails with HTTP 503 "FAISS index not initialized" and so returns no
    result set, not even an empty one; the error is distinct: once there is
    an index, no search answers 503. *)
Theorem search_without_index_is_503 w g image k :
  faiss_index g = None →
  search_product w g image k = HTTPException 503 NOT_INITIALIZED
  ∧ (∀ body, search_product w g image k ≠ Ok200 body)
  ∧ (∀ g' d, is_Some (faiss_index g') →
       search_product w g' image k ≠ HTTPException 503 d).
Proof.
  unfold search_product. intros ->. split; [done|]. split; [done|].
  intros g' d [idx ->].
  destruct (image_decode w image ≫= extract_embedding w) as [q|]; [|done].
  by destruct (index_search idx q _).
Qed.

(** C2 (as the code has it). When a rebuild extracts no embedding at all,
    the vector index stays the one that was active before (none, if there
    was none); the endpoint answers success with the size of that index
    when the build ran to its end, and HTTP 500 when listing a reference
    path raised. *)
Theorem empty_rebuild_keeps_vector_index w g catalog mapping status :
  catalog_json w = CatalogLoaded catalog →
  catalog_loop w catalog ([], []) = (([], mapping), status) →
  faiss_index (rebuild_index w g).2 = faiss_index g
  ∧ (rebuild_index w g).1
    = match status with
      | None => Ok200 {| rebuild_success := true;
                         rebuild_index_size := index_size_of g |}
      | Some e => HTTPException 500 (DetailExn e)
      end.
Proof.
  intros Hc Hloop. unfold rebuild_index, build_faiss_index.
  rewrite Hc, Hloop. by destruct status.
Qed.

(** C10 (as the code has it). The health operation never fails. While
    there is no index, where a search answers the 503 of "not ready", it
    reports status ok and index size 0; the product count it reports is the
    number of distinct product ids of the current mapping, hence 0 when
    the mapping is empty, as it is before the first build. *)
Theorem health_total_without_index w g image k :
  faiss_index g = None →
  status (health_check g) = "ok"
  ∧ index_size (health_check g) = 0
  ∧ products (health_check g) = distinct_products (product_mapping g)
  ∧ (product_mapping g = [] → products (health_check g) = 0)
  ∧ search_product w g image k = HTTPException 503 NOT_INITIALIZED.
Proof.
  intros Hnone. unfold health_check, index_size_of, search_product.
  rewrite Hnone. cbn. repeat split.
  - by destruct (product_mapping g).
  - by intros ->.
Qed.

End Endpoints.

(** * The properties on the concrete deployment *)

Example derived_id_of_cup : derived_id Demo.cup = "tea_cup".
Proof. reflexivity. Qed.

Example first_build_makes_ready :
  rebuild_index (Demo.world_with Demo.tree_mug_only) initial_globals
  = (Ok200 {| rebuild_success := true; rebuild_index_size := 1 |}, Demo.ready).
Proof. vm_compute. reflexivity. Qed.

Example aggregate_demo :
  aggregate Demo.three_refs Demo.raw_matches 2
  = [make_match 9 Demo.mug_ref; make_match 5 Demo.cup_ref].
Proof. vm_compute. reflexivity. Qed.

Example search_demo_ties :
  index_search Demo.tied_index Demo.unit_x (Z.min 2 (ntotal Demo.tied_index))
  = Some [(1, 1); (1, 2)].
Proof. vm_compute. reflexivity. Qed.

Example refs_of_demo_catalog :
  let w := Demo.world_with Demo.tree_mug_only in
  listable w [Demo.mug; Demo.cup] = true
  ∧ listed_prefix w [Demo.mug; Demo.cup] ≫= spec_entry_refs w
    = [(Demo.unit_x, Demo.mug_ref)].
Proof. vm_compute. split; reflexivity. Qed.

Lemma aggregate_witness :
  0 < 2
  ∧ (Z.of_nat (length (aggregate Demo.three_refs Demo.raw_matches 2)) <= 2
     ∧ NoDup (match_product_id <$> aggregate Demo.three_refs Demo.raw_matches 2)
     ∧ (∀ r, r ∈ aggregate Demo.three_refs Demo.raw_matches 2 →
          ∃ dist idx match_info,
            List.find (refers_to Demo.three_refs (match_product_id r)) Demo.raw_matches
              = Some (dist, idx)
            ∧ Demo.three_refs !! Z.to_nat idx = Some match_info
            ∧ r = make_match dist match_info)
     ∧ aggregate Demo.three_refs
         (List.filter (fun m => in_range Demo.three_refs m.2) Demo.raw_matches) 2
       = aggregate Demo.three_refs Demo.raw_matches 2).
Proof.
  split; [lia|].
  apply (aggregate_at_most_k_distinct_first Demo.three_refs Demo.raw_matches 2). lia.
Defined.

Lemma search_witness :
  0 < 2
  ∧ Z.of_nat (length Demo.unit_x) = index_d Demo.tied_index
  ∧ ∃ raw,
      index_search Demo.tied_index Demo.unit_x (Z.min 2 (ntotal Demo.tied_index))
        = Some raw
      ∧ Z.of_nat (length raw) <= Z.min 2 (ntotal Demo.tied_index)
      ∧ StronglySorted ranks_before raw.
Proof.
  split; [lia|]. split; [reflexivity|].
  apply (search_sorted_stable_bounded Demo.tied_index Demo.unit_x 2); [lia|reflexivity].
Defined.

Lemma build_skips_witness :
  let w := Demo.world_with Demo.tree_mug_only in
  let catalog := [Demo.mug; Demo.cup] in
  let refs := listed_prefix w catalog ≫= spec_entry_refs w in
  catalog_json w = CatalogLoaded catalog
  ∧ catalog_loop w catalog ([], [])
    = ((refs.*1, refs.*2), if listable w catalog then None else Some NotADirectoryError)
  ∧ product_mapping (build_faiss_index w initial_globals).2 = refs.*2
  ∧ (listable w catalog = true → listed_prefix w catalog = catalog).
Proof.
  intros w catalog refs. split; [reflexivity|].
  apply (build_skips_failures_and_continues w initial_globals catalog). reflexivity.
Defined.

Lemma search_not_ready_witness :
  let w := Demo.world_with Demo.tree_both in
  faiss_index (@initial_globals Z Z) = None
  ∧ search_product w initial_globals [Byte.x00] 5 = HTTPException 503 NOT_INITIALIZED.
Proof.
  intros w. split; [reflexivity|].
  apply (search_without_index_is_503 w initial_globals [Byte.x00] 5). reflexivity.
Defined.

Lemma empty_rebuild_witness :
  let w := Demo.world_with Demo.tree_empty in
  catalog_json w = CatalogLoaded [Demo.mug; Demo.cup]
  ∧ catalog_loop w [Demo.mug; Demo.cup] ([], []) = (([], []), None)
  ∧ faiss_index (rebuild_index w Demo.ready).2 = faiss_index Demo.ready
  ∧ (rebuild_index w Demo.ready).1
    = Ok200 {| rebuild_success := true; rebuild_index_size := index_size_of Demo.ready |}.
Proof.
  intros w. split; [reflexivity|]. split; [reflexivity|].
  apply (empty_rebuild_keeps_vector_index w Demo.ready [Demo.mug; Demo.cup] [] None);
    reflexivity.
Defined.

Lemma health_witness :
  let w := Demo.world_with Demo.tree_both in
  faiss_index (@initial_globals Z Z) = None
  ∧ status (health_check (@initial_globals Z Z)) = "ok"
  ∧ index_size (health_check (@initial_globals Z Z)) = 0.
Proof.
  intros w. split; [reflexivity|].
  pose proof (health_total_without_index w initial_globals [Byte.x00] 5 eq_refl)
    as (Hs & Hi & _).
  split; [exact Hs|exact Hi].
Defined.

(** C2, where the design's statement fails. The mug is indexed; the references are then
    removed and the index is rebuilt. The loop extracts nothing, yet the
    endpoint answers success (with the old index size 1), and the mapping of
    the index that stays active has been emptied. *)
Lemma empty_rebuild_succeeds_and_clears_mapping :
  let w := Demo.world_with Demo.tree_empty in
  let r := rebuild_index w Demo.ready in
  (catalog_loop w [Demo.mug; Demo.cup] ([], [])).1.1 = []
  ∧ r.1 = Ok200 {| rebuild_success := true; rebuild_index_size := 1 |}
  ∧ faiss_index r.2 = faiss_index Demo.ready
  ∧ product_mapping Demo.ready = [Demo.mug_ref]
  ∧ product_mapping r.2 = [].
Proof. vm_compute. repeat split; reflexivity. Qed.

(** C10, where the statement fails. On a fresh service, listing the tea cup's
    reference path raises after the mug was processed: the rebuild answers
    500, there is still no index, and the health operation reports one
    product, not zero. *)
Lemma health_counts_products_without_index :
  let w := Demo.world_with Demo.tree_cup_is_file in
  let r := rebuild_index w initial_globals in
  r.1 = HTTPException 500 (DetailExn NotADirectoryError)
  ∧ faiss_index r.2 = None
  ∧ index_size (health_check r.2) = 0
  ∧ products (health_check r.2) = 1.
Proof. vm_compute. repeat split; reflexivity. Qed.

(** C8, on the trace that breaks it. A first build indexes the mug: one
    vector, one mapping entry. The references are removed and the index is
    rebuilt: the build finds nothing and returns, the index keeps its
    vector, and the mapping is left empty. The correspondence between index
    and mapping no longer holds, and a search for the mug's own image, which
    found it before, now finds nothing. *)
Theorem failed_rebuild_breaks_index_mapping_correspondence :
  let w1 := Demo.world_with Demo.tree_mug_only in
  let w2 := Demo.world_with Demo.tree_empty in
  let g1 := (rebuild_index w1 initial_globals).2 in
  let g2 := (rebuild_index w2 g1).2 in
  build_faiss_index w1 initial_globals = (Returned IndexBuilt, g1)
  ∧ index_matches_mapping g1
  ∧ build_faiss_index w2 g1 = (Returned NoEmbeddings, g2)
  ∧ index_size_of g2 = 1
  ∧ Z.of_nat (length (product_mapping g2)) = 0
  ∧ ¬ index_matches_mapping g2
  ∧ matches <$> (match search_product w2 g1 [Byte.x00] 5 with
                 | Ok200 body => Some body | _ => None end)
    = Some [make_match 1 Demo.mug_ref]
  ∧ matches <$> (match search_product w2 g2 [Byte.x00] 5 with
                 | Ok200 body => Some body | _ => None end)
    = Some [].
Proof.
  cbn zeta.
  assert (H1 : build_faiss_index (Demo.world_with Demo.tree_mug_only) initial_globals
               = (Returned IndexBuilt, Demo.ready)) by (vm_compute; reflexivity).
  assert (Hg1 : (rebuild_index (Demo.world_with Demo.tree_mug_only) initial_globals).2
                = Demo.ready) by (vm_compute; reflexivity).
  rewrite Hg1. split; [exact H1|].
  split; [apply (build_success_matches _ _ _ H1)|].
  split; [vm_compute; reflexivity|].
  split; [vm_compute; reflexivity|].
  split; [vm_compute; reflexivity|].
  split; [|split; vm_compute; reflexivity].
  unfold index_matches_mapping.
  replace (faiss_index (rebuild_index (Demo.world_with Demo.tree_empty) Demo.ready).2)
    with (faiss_index Demo.ready) by (vm_compute; reflexivity).
  replace (product_mapping (rebuild_index (Demo.world_with Demo.tree_empty) Demo.ready).2)
    with (@nil (@MappingEntry Z)) by (vm_compute; reflexivity).
  cbn. intros [Hlen _]. vm_compute in Hlen. discriminate.
Qed.

(** * Further properties of the code *)

Section AggregationAsList.

Context {F : Type} `{!FloatOps F} {Price : Type}.
Implicit Types (mapping : list (@MappingEntry Price)) (raw : list (F * Z)).
Implicit Types (results ms : list (@Match F Price)) (seen : gset string).

Lemma first_per_product_sublist ms : ∀ seen,
  first_per_product seen ms `sublist_of` ms.
Proof.
  induction ms as [|r rest IH]; intros seen; cbn; [constructor|].
  destruct (bool_decide _); [apply sublist_cons, IH|apply sublist_skip, IH].
Qed.

Lemma first_per_product_fresh ms : ∀ seen r,
  r ∈ first_per_product seen ms → match_product_id r ∉ seen.
Proof.
  induction ms as [|r0 rest IH]; intros seen r; cbn; [by intros ?%elem_of_nil|].
  destruct (bool_decide _) eqn:Hmem; [apply IH|].
  apply bool_decide_eq_false in Hmem.
  intros [->|Hin]%elem_of_cons; [done|].
  apply IH in Hin. intros Hs. apply Hin. by apply elem_of_union_r.
Qed.

Lemma first_per_product_NoDup ms : ∀ seen,
  NoDup (match_product_id <$> first_per_product seen ms).
Proof.
  induction ms as [|r0 rest IH]; intros seen; cbn; [constructor|].
  destruct (bool_decide _); [apply IH|].
  cbn. constructor; [|apply IH].
  intros (r & Heq & Hin)%list_elem_of_fmap.
  apply first_per_product_fresh in Hin. apply Hin. rewrite <- Heq.
  by apply elem_of_union_l, elem_of_singleton.
Qed.

Lemma first_per_product_complete ms : ∀ seen r,
  r ∈ ms →
  match_product_id r ∈ seen
  ∨ match_product_id r ∈ match_product_id <$> first_per_product seen ms.
Proof.
  induction ms as [|r0 rest IH]; intros seen r; [by intros ?%elem_of_nil|].
  cbn. intros [->|Hin]%elem_of_cons.
  - destruct (bool_decide _) eqn:Hmem.
    + left. by apply bool_decide_eq_true in Hmem.
    + right. cbn. by left.
  - destruct (bool_decide _) eqn:Hmem.
    + by apply IH.
    + destruct (IH ({[match_product_id r0]} ∪ seen) r Hin) as [Hs|Hr].
      * apply elem_of_union in Hs as [->%elem_of_singleton|Hs]; [|by left].
        right. cbn. by left.
      * right. cbn. by right.
Qed.

Lemma elem_of_candidates mapping raw r :
  r ∈ candidates mapping raw ↔
  ∃ dist idx match_info,
    (dist, idx) ∈ raw ∧ in_range mapping idx = true
    ∧ mapping !! Z.to_nat idx = Some match_info
    ∧ r = make_match dist match_info.
Proof.
  unfold candidates. rewrite list_elem_of_omap. split.
  - intros ([dist idx] & Hin & Hf). cbn in Hf.
    destruct (in_range mapping idx) eqn:Hr; [|done].
    destruct (mapping !! Z.to_nat idx) as [mi|] eqn:Hl; [|done].
    injection Hf as <-. by exists dist, idx, mi.
  - intros (dist & idx & mi & Hin & Hr & Hl & ->).
    exists (dist, idx). split; [done|]. cbn. by rewrite Hr, Hl.
Qed.

Lemma candidates_scores_sublist mapping raw :
  (similarity <$> candidates mapping raw) `sublist_of` raw.*1.
Proof.
  induction raw as [|[dist idx] rest IH]; [constructor|].
  unfold candidates in *. cbn [omap list_omap fst snd fmap list_fmap].
  destruct (in_range mapping idx); [|by apply sublist_cons].
  destruct (mapping !! Z.to_nat idx) as [mi|]; cbn; [|by apply sublist_cons].
  by apply sublist_skip.
Qed.

(** The loop, started anywhere below its bound, appends the first matches of
    the products not yet seen until the bound is reached. *)
Lemma aggregate_loop_take mapping k raw : ∀ results seen,
  (∀ p, p ∈ seen ↔ p ∈ match_product_id <$> results) →
  Z.of_nat (length results) < Z.max k 1 →
  aggregate_loop mapping k raw results seen
  = results ++ take (Z.to_nat (Z.max k 1) - length results)
                    (first_per_product seen (candidates mapping raw)).
Proof.
  induction raw as [|[dist idx] rest IH]; intros results seen Hseen Hlt.
  - cbn. by rewrite take_nil, app_nil_r.
  - cbn [aggregate_loop]. unfold candidates. cbn [omap list_omap fst snd].
    fold (candidates mapping rest).
    destruct (in_range mapping idx) eqn:Hr; cbn [negb]; [|by apply IH].
    destruct (in_range_lookup _ _ Hr) as [mi Hmi]. rewrite Hmi. cbn [fmap option_fmap option_map].
    cbn [first_per_product make_match match_product_id].
    destruct (bool_decide (product_id mi ∈ seen)) eqn:Hmem; cbn zeta.
    + apply bool_decide_eq_true in Hmem.
      assert (results ≠ []) as Hne.
      { intros ->. apply Hseen in Hmem. by apply elem_of_nil in Hmem. }
      destruct (Z.leb_spec k (Z.of_nat (length results))) as [Hge|_]; [|by apply IH].
      destruct results; [done|]. cbn [length] in *. lia.
    + apply bool_decide_eq_false in Hmem.
      set (r := make_match dist mi). set (results' := results ++ [r]).
      assert (Hlen : length results' = S (length results)).
      { unfold results'. rewrite length_app. cbn. lia. }
      replace (Z.to_nat (Z.max k 1) - length results)%nat
        with (S (Z.to_nat (Z.max k 1) - length results'))%nat by lia.
      cbn [take]. fold r.
      destruct (Z.leb_spec k (Z.of_nat (length results'))) as [Hge|Hlt'].
      * replace (Z.to_nat (Z.max k 1) - length results')%nat with 0%nat by lia.
        by rewrite take_0.
      * rewrite IH.
        -- unfold results'. by rewrite <- app_assoc.
        -- intros p. unfold results'.
           rewrite fmap_app, elem_of_app, elem_of_union, Hseen.
           cbn. rewrite list_elem_of_singleton, elem_of_singleton. tauto.
        -- lia.
Qed.

End AggregationAsList.

Section AggregationExtras.

Context {F : Type} `{!FloatOps F} {Price Image : Type}.
Implicit Types (mapping : list (@MappingEntry Price)) (raw : list (F * Z)).
Implicit Types (w : @World F Price Image) (g : @Globals F Price).

Lemma aggregate_as_take mapping raw k :
  aggregate mapping raw k
  = take (Z.to_nat (Z.max k 1)) (first_per_product ∅ (candidates mapping raw)).
Proof.
  unfold aggregate. rewrite aggregate_loop_take.
  - cbn. by rewrite Nat.sub_0_r.
  - intros p. cbn. split; [intros []%not_elem_of_empty|intros []%elem_of_nil].
  - cbn. lia.
Qed.

Lemma aggregate_sublist_candidates mapping raw k :
  aggregate mapping raw k `sublist_of` candidates mapping raw.
Proof.
  rewrite aggregate_as_take.
  etrans; [apply sublist_take|apply first_per_product_sublist].
Qed.

Lemma aggregate_NoDup mapping raw k :
  NoDup (match_product_id <$> aggregate mapping raw k).
Proof.
  rewrite aggregate_as_take, fmap_take.
  apply (sublist_NoDup _ (match_product_id <$> first_per_product ∅ (candidates mapping raw)));
    [apply first_per_product_NoDup|apply sublist_take].
Qed.

Lemma sublist_StronglySorted {A} (R : A → A → Prop) (l1 l2 : list A) :
  l1 `sublist_of` l2 → StronglySorted R l2 → StronglySorted R l1.
Proof.
  induction 1 as [|x l1 l2 Hsub IH|x l1 l2 Hsub IH]; intros Hs; [done| |].
  - apply StronglySorted_cons in Hs as [Hx Hs].
    apply StronglySorted_cons. split; [|by apply IH].
    rewrite Forall_forall in Hx. apply Forall_forall. intros y Hy.
    apply Hx. by eapply elem_of_sublist.
  - apply StronglySorted_cons in Hs as [_ Hs]. by apply IH.
Qed.

(** X1. For every [k], also zero and negative ones, the aggregation loop
    returns the first [max k 1] elements of this list: the in-range raw
    matches, each turned into a match with the mapping entry it points to,
    keeping of every product the first one only. *)
Theorem aggregate_first_products_up_to_k mapping raw k :
  aggregate mapping raw k
  = take (Z.to_nat (Z.max k 1)) (first_per_product ∅ (candidates mapping raw)).
Proof.
  unfold aggregate.
  rewrite (aggregate_loop_take mapping k raw [] ∅).
  - cbn [length app]. f_equal. lia.
  - intros p. cbn. split; [intros []%not_elem_of_empty|intros []%elem_of_nil].
  - cbn. lia.
Qed.

(** X2. The aggregation never reorders: the similarities of the matches it
    returns are a subsequence of the scores of the raw matches, so whatever
    order relation holds along the raw matches (best first, say) holds along
    the returned matches. *)
Theorem aggregate_keeps_ranking mapping raw k :
  (similarity <$> aggregate mapping raw k) `sublist_of` raw.*1
  ∧ ∀ R : F → F → Prop,
      StronglySorted R raw.*1 →
      StronglySorted R (similarity <$> aggregate mapping raw k).
Proof.
  assert (Hsub : (similarity <$> aggregate mapping raw k) `sublist_of` raw.*1).
  { trans (similarity <$> candidates mapping raw);
      [|apply candidates_scores_sublist].
    apply fmap_sublist, aggregate_sublist_candidates. }
  split; [done|]. intros R. by apply sublist_StronglySorted.
Qed.

(** X3. When the aggregation returns fewer than [k] matches it has lost no
    product: every product that an in-range raw match points to is among the
    returned matches. *)
Theorem aggregate_below_k_is_complete mapping raw k dist idx match_info :
  Z.of_nat (length (aggregate mapping raw k)) < k →
  (dist, idx) ∈ raw →
  in_range mapping idx = true →
  mapping !! Z.to_nat idx = Some match_info →
  product_id match_info ∈ match_product_id <$> aggregate mapping raw k.
Proof.
  rewrite aggregate_as_take. intros Hlen Hin Hr Hl.
  rewrite length_take in Hlen. rewrite take_ge by lia.
  destruct (first_per_product_complete (candidates mapping raw) ∅
              (make_match dist match_info)) as [Hs|Hp]; [|by apply not_elem_of_empty in Hs|done].
  apply elem_of_candidates. by exists dist, idx, match_info.
Qed.

(** X4. Whatever [k] is, the matches of a successful search have pairwise
    different product ids, each carries the metadata of an entry of
    [product_mapping], and there are never more of them than the distinct
    products the mapping has (the number the health endpoint reports). *)
Theorem search_matches_come_from_mapping w g image k body :
  search_product w g image k = Ok200 body →
  success body = true
  ∧ NoDup (match_product_id <$> matches body)
  ∧ (∀ r, r ∈ matches body →
       ∃ dist match_info,
         match_info ∈ product_mapping g ∧ r = make_match dist match_info)
  ∧ Z.of_nat (length (matches body)) <= distinct_products (product_mapping g).
Proof.
  unfold search_product. destruct (faiss_index g) as [idx|]; [|done].
  destruct (image_decode w image ≫= extract_embedding w) as [q|]; [|done].
  destruct (index_search idx q _) as [raw|]; [|done].
  intros [= <-]. cbn [success matches].
  assert (Hfrom : ∀ r, r ∈ aggregate (product_mapping g) raw k →
            ∃ dist match_info,
              match_info ∈ product_mapping g ∧ r = make_match dist match_info).
  { intros r Hr. eapply elem_of_sublist in Hr; [|apply aggregate_sublist_candidates].
    apply elem_of_candidates in Hr as (dist & i & mi & _ & _ & Hl & ->).
    exists dist, mi. split; [|done]. by eapply list_elem_of_lookup_2. }
  pose proof (aggregate_NoDup (product_mapping g) raw k) as Hnd.
  split; [done|]. split; [done|]. split; [done|].
  unfold distinct_products. apply inj_le.
  rewrite <- (length_fmap match_product_id), <- (size_list_to_set (C := gset string)) by done.
  apply subseteq_size. intros p Hp.
  apply elem_of_list_to_set, list_elem_of_fmap in Hp as (r & -> & Hr).
  destruct (Hfrom r Hr) as (dist & mi & Hmi & ->).
  apply elem_of_list_to_set, list_elem_of_fmap. by exists mi.
Qed.

End AggregationExtras.

Lemma substring_whole (s : string) : substring 0 (String.length s) s = s.
Proof. induction s as [|c s IH]; cbn; [done|]. by rewrite IH. Qed.

Lemma substring_split (s : string) : ∀ n,
  (n ≤ String.length s)%nat →
  s = substring 0 n s +:+ substring n (String.length s - n) s.
Proof.
  induction s as [|c s IH]; intros [|n] Hn; simpl in *; try lia; [done| |].
  - by rewrite substring_whole.
  - change (String c s
            = String c (substring 0 n s +:+ substring n (String.length s - n) s)).
    f_equal. apply IH. lia.
Qed.

(** [s.endswith(suf)] answers [True] only on a string that ends with [suf]. *)
Lemma endswith_suffix (s suf : string) :
  PyStr.endswith s suf = true → ∃ stem, s = stem +:+ suf.
Proof.
  unfold PyStr.endswith. intros [Hle Heq]%andb_true_iff.
  apply Nat.leb_le in Hle. apply String.eqb_eq in Heq.
  exists (substring 0 (String.length s - String.length suf) s).
  rewrite <- Heq at 2.
  rewrite (substring_split s (String.length s - String.length suf)) at 1 by lia.
  do 2 f_equal. lia.
Qed.

Lemma size_list_to_set_le (l : list string) :
  (size (list_to_set l : gset string) ≤ length l)%nat.
Proof.
  induction l as [|x l IH]; [done|].
  rewrite list_to_set_cons, size_union_alt, size_singleton. cbn.
  assert (Hsub : (list_to_set l : gset string) ∖ {[x]} ⊆ list_to_set l).
  { intros y Hy. by apply elem_of_difference in Hy as [? _]. }
  apply subseteq_size in Hsub. lia.
Qed.

Section BuildExtras.

Context {F : Type} `{!FloatOps F} {Price Image : Type}.
Implicit Types (w : @World F Price Image) (g : @Globals F Price).
Implicit Types (catalog : list (@CatalogEntry Price)).

Lemma listed_prefix_sublist w catalog :
  listed_prefix w catalog `sublist_of` catalog.
Proof.
  induction catalog as [|product rest IH]; cbn; [done|].
  destruct (listable_entry w product); [by apply sublist_skip|apply sublist_nil_l].
Qed.

Lemma build_mapping_refs w g catalog :
  catalog_json w = CatalogLoaded catalog →
  product_mapping (build_faiss_index w g).2
  = (listed_prefix w catalog ≫= spec_entry_refs w).*2.
Proof.
  intros Hc. unfold build_faiss_index. rewrite Hc.
  pose proof (catalog_loop_refines w catalog ([], [])) as Hloop.
  cbn zeta in Hloop. cbn [fst snd app] in Hloop. rewrite Hloop.
  destruct (listable w catalog); [|done].
  destruct (Z.of_nat (length _) =? 0); [done|].
  destruct (np_array _); [|done].
  by destruct (index_add _ _).
Qed.

Lemma mapping_entry_origin w g catalog m :
  catalog_json w = CatalogLoaded catalog →
  m ∈ product_mapping (build_faiss_index w g).2 →
  ∃ product names stem suffix,
    product ∈ catalog
    ∧ product_id m = derived_id product
    ∧ product_name m = entry_name product
    ∧ price m = entry_price product
    ∧ fs w (PyStr.path_join REFERENCES_DIR (derived_id product)) = Directory names
    ∧ ref_file m ∈ names
    ∧ suffix ∈ IMAGE_SUFFIXES ∧ ref_file m = stem +:+ suffix
    ∧ is_Some (image_open w (PyStr.path_join
                               (PyStr.path_join REFERENCES_DIR (derived_id product))
                               (ref_file m))
               ≫= extract_embedding w).
Proof.
  intros Hc. rewrite (build_mapping_refs w g catalog Hc).
  intros ([e m'] & -> & Hin)%list_elem_of_fmap.
  apply list_elem_of_bind in Hin as (product & Hin & Hp).
  eapply elem_of_sublist in Hp; [|apply listed_prefix_sublist].
  unfold spec_entry_refs in Hin.
  destruct (fs w (PyStr.path_join REFERENCES_DIR (derived_id product)))
    as [| |names] eqn:Hnode; [by apply elem_of_nil in Hin..|].
  apply list_elem_of_omap in Hin as (f & Hf & Hsome).
  apply list_elem_of_filter in Hf as [Hext Hf]. apply Is_true_eq_true in Hext.
  destruct (image_open w _ ≫= extract_embedding w) as [e'|] eqn:Hemb; [|done].
  cbn in Hsome. injection Hsome as -> <-. cbn.
  unfold PyStr.endswith_any in Hext. apply existsb_exists in Hext as (suffix & Hsuf & Hends).
  apply endswith_suffix in Hends as [stem Hstem].
  exists product, names, stem, suffix.
  repeat (split; [done|]). split; [by apply list_elem_of_In|]. split; [done|].
  rewrite Hemb. by eexists.
Qed.

(** X5. After a build that loaded the catalog, however it ended, every entry
    of [product_mapping] comes from a catalog product and from a file of its
    reference directory: it has the product's (given or derived) id, name
    and price, and its file is listed in [references/<id>], ends in [.jpg],
    [.jpeg] or [.png], and could be opened and embedded. *)
Theorem mapping_entries_come_from_catalog w g catalog m :
  catalog_json w = CatalogLoaded catalog →
  m ∈ product_mapping (build_faiss_index w g).2 →
  ∃ product names stem suffix,
    product ∈ catalog
    ∧ product_id m = derived_id product
    ∧ product_name m = entry_name product
    ∧ price m = entry_price product
    ∧ fs w (PyStr.path_join REFERENCES_DIR (derived_id product)) = Directory names
    ∧ ref_file m ∈ names
    ∧ suffix ∈ IMAGE_SUFFIXES ∧ ref_file m = stem +:+ suffix
    ∧ is_Some (image_open w (PyStr.path_join
                               (PyStr.path_join REFERENCES_DIR (derived_id product))
                               (ref_file m))
               ≫= extract_embedding w).
Proof.
  intros Hc Hm.
  destruct (mapping_entry_origin w g catalog m Hc Hm)
    as (product & names & stem & suffix & Hrest).
  by exists product, names, stem, suffix.
Qed.

(** X6. After a build that loaded the catalog, the health endpoint never
    reports more products than the catalog has entries. *)
Theorem health_products_at_most_catalog w g catalog :
  catalog_json w = CatalogLoaded catalog →
  products (health_check (build_faiss_index w g).2) <= Z.of_nat (length catalog).
Proof.
  intros Hc. unfold health_check. cbn [products].
  assert (Hle : distinct_products (product_mapping (build_faiss_index w g).2)
                <= Z.of_nat (length catalog)).
  { unfold distinct_products. apply inj_le.
    etrans; [|etrans; [apply (size_list_to_set_le (derived_id <$> catalog))|
                        by rewrite length_fmap]].
    apply subseteq_size. intros p Hp.
    apply elem_of_list_to_set, list_elem_of_fmap in Hp as (m & -> & Hm).
    destruct (mapping_entry_origin w g catalog m Hc Hm)
      as (product & _ & _ & _ & Hin & -> & _).
    apply elem_of_list_to_set, list_elem_of_fmap. by exists product. }
  destruct (product_mapping _); [lia|done].
Qed.

End BuildExtras.

Section StateExtras.

Context {F : Type} `{!FloatOps F} {Price Image : Type}.
Implicit Types (w : @World F Price Image) (g : @Globals F Price).

(** X7. A build does not depend on what was there before: the exit it takes
    is the same from any two states, so is the mapping it leaves once the
    catalog is loaded, and when it builds an index the whole state is the
    same. *)
Theorem build_forgets_previous_state w g g' :
  (build_faiss_index w g).1 = (build_faiss_index w g').1
  ∧ (∀ catalog, catalog_json w = CatalogLoaded catalog →
       product_mapping (build_faiss_index w g).2
       = product_mapping (build_faiss_index w g').2)
  ∧ ((build_faiss_index w g).1 = Returned IndexBuilt →
       (build_faiss_index w g).2 = (build_faiss_index w g').2).
Proof.
  unfold build_faiss_index.
  destruct (catalog_json w) as [| |catalog]; cbn; [by repeat split..|].
  destruct (catalog_loop w catalog ([], [])) as [[embs pm] [e|]]; cbn;
    [by repeat split|].
  destruct (Z.of_nat (length embs) =? 0); cbn; [by repeat split|].
  destruct (np_array embs) as [matrix|]; cbn; [|by repeat split].
  destruct (index_add _ matrix); by repeat split.
Qed.

Lemma rebuild_keeps_dimension w g :
  well_dimensioned g → well_dimensioned (rebuild_index w g).2.
Proof.
  intros Hg. unfold rebuild_index, build_faiss_index.
  destruct (catalog_json w) as [| |catalog]; cbn; [done..|].
  destruct (catalog_loop w catalog ([], [])) as [[embs pm] [e|]]; cbn; [done|].
  destruct (Z.of_nat (length embs) =? 0); cbn; [done|].
  destruct (np_array embs) as [[width rows]|] eqn:Hnp; cbn; [|done].
  apply np_array_rows in Hnp as [-> Hrows].
  unfold index_add. cbn [fst snd new_IndexFlatIP index_d index_vectors].
  destruct (Z.eqb_spec width EMBEDDING_DIM) as [->|]; cbn;
    unfold well_dimensioned; cbn; by split.
Qed.

(** X8. Whatever sequence of rebuilds a service has served since its start,
    failed ones included, the index it holds (if any) has dimension
    [EMBEDDING_DIM] and every vector stored in it has exactly that many
    components. *)
Theorem rebuilds_keep_dimension (ws : list (@World F Price Image)) :
  well_dimensioned (after_rebuilds ws (@initial_globals F Price)).
Proof.
  unfold after_rebuilds.
  assert (Hall : ∀ g, well_dimensioned g →
            well_dimensioned (foldl (fun g w => (rebuild_index w g).2) g ws)).
  { induction ws as [|w ws IH]; intros g Hg; cbn; [done|].
    apply IH. by apply rebuild_keeps_dimension. }
  apply Hall. exact I.
Qed.

Lemma build_exit_not_found w g g' :
  build_faiss_index w g = (Returned CatalogNotFound, g') → g' = g.
Proof.
  unfold build_faiss_index.
  destruct (catalog_json w) as [| |catalog]; [congruence|done|].
  destruct (catalog_loop w catalog ([], [])) as [[embs pm] [e|]]; [done|].
  destruct (Z.of_nat (length embs) =? 0); [done|].
  destruct (np_array embs) as [matrix|]; [|done].
  by destruct (index_add _ matrix).
Qed.

Lemma build_exit_no_embeddings w g g' :
  build_faiss_index w g = (Returned NoEmbeddings, g') →
  faiss_index g' = faiss_index g ∧ product_mapping g' = [].
Proof.
  unfold build_faiss_index.
  destruct (catalog_json w) as [| |catalog]; [done..|].
  pose proof (catalog_loop_lockstep w catalog ([], []) eq_refl) as Hlock.
  cbn zeta in Hlock.
  destruct (catalog_loop w catalog ([], [])) as [[embs pm] [e|]]; [done|].
  cbn [fst snd] in Hlock.
  destruct (Z.eqb_spec (Z.of_nat (length embs)) 0) as [Hz|].
  - intros [= <-]. cbn. split; [done|].
    destruct pm; [done|]. cbn in *. lia.
  - destruct (np_array embs) as [matrix|]; [|done].
    by destruct (index_add _ matrix).
Qed.

(** X9. From a state in which index and mapping belong together, a build
    that returns leaves them together in every case but one: the build that
    embeds nothing while an index is active, which keeps the index and
    empties the mapping. *)
Theorem build_keeps_consistency_but_once w g e g' :
  consistent g →
  build_faiss_index w g = (Returned e, g') →
  consistent g' ↔ (e = NoEmbeddings → faiss_index g = None).
Proof.
  intros Hg Hb.
  destruct e.
  - (* the catalog was not found: nothing changed *)
    apply build_exit_not_found in Hb as ->. split; [done|by intros _].
  - (* nothing was embedded: the index is kept, the mapping is empty *)
    apply build_exit_no_embeddings in Hb as [Hi Hm].
    unfold consistent in *. rewrite Hi, Hm.
    destruct (faiss_index g) as [idx|] eqn:Hidx.
    + split; [|by intros H0; specialize (H0 eq_refl)].
      unfold index_matches_mapping. rewrite Hi, Hm. cbn.
      intros (Hpos & Hlen & _). lia.
    + split; [by intros _|done].
  - (* an index was built *)
    split; [by intros _|intros _].
    destruct (build_success_matches w g g' Hb) as (Hm & idx & Hi & _ & Hpos).
    unfold consistent. by rewrite Hi.
Qed.

(** X10. After a start-up whose build returned, index and mapping belong
    together: there is no index and the mapping is empty, or there is a
    non-empty index with one mapping entry per vector, every vector of
    dimension [EMBEDDING_DIM]. *)
Theorem startup_is_consistent w e g :
  startup_event w = (Returned e, g) → consistent g.
Proof.
  unfold startup_event. intros Hb. destruct e.
  - by apply build_exit_not_found in Hb as ->.
  - apply build_exit_no_embeddings in Hb as [Hi Hm].
    unfold consistent. by rewrite Hi, Hm.
  - destruct (build_success_matches w initial_globals g Hb)
      as (Hm & idx & Hi & _ & Hpos).
    unfold consistent. by rewrite Hi.
Qed.

(** X11. A build touches the globals only after the catalog was loaded, and
    the vector index only at its end: it is the one from before unless the
    build went through to the last line or failed in [index.add]; in this
    last case an index without vectors has taken its place. *)
Theorem build_leaves_index_unless_built w g :
  let r := build_faiss_index w g in
  (r.1 = Returned CatalogNotFound ∨ r.1 = Raised JSONDecodeError → r.2 = g)
  ∧ (r.1 ≠ Returned IndexBuilt → r.1 ≠ Raised AssertionError →
       faiss_index r.2 = faiss_index g)
  ∧ (r.1 = Raised AssertionError →
       faiss_index r.2 = Some (new_IndexFlatIP EMBEDDING_DIM)
       ∧ product_mapping r.2 ≠ []).
Proof.
  cbn zeta. unfold build_faiss_index.
  destruct (catalog_json w) as [| |catalog]; cbn; [by repeat split..|].
  pose proof (catalog_loop_refines w catalog ([], [])) as Hloop.
  pose proof (catalog_loop_lockstep w catalog ([], []) eq_refl) as Hlock.
  cbn zeta in Hloop, Hlock.
  destruct (catalog_loop w catalog ([], [])) as [[embs pm] st]. cbn [fst snd] in Hlock.
  assert (Hst : st = None ∨ st = Some NotADirectoryError).
  { injection Hloop as _ _ ->. destruct (listable w catalog); auto. }
  destruct st as [e|]; cbn.
  { destruct Hst as [|[= ->]]; [done|]. split; [intros [|]; done|]. by split. }
  destruct (Z.eqb_spec (Z.of_nat (length embs)) 0) as [|Hne]; cbn.
  { split; [intros [|]; done|]. by split. }
  destruct (np_array embs) as [matrix|]; cbn.
  2:{ split; [intros [|]; done|]. by split. }
  destruct (index_add _ matrix); cbn.
  - split; [intros [|]; done|]. by split.
  - split; [intros [|]; done|]. split; [done|]. intros _. split; [done|].
    destruct pm; [cbn in *; lia|done].
Qed.

(** X12. The health endpoint answers in every state, with status ok, an
    index size that is not negative, and a product count between 0 and the
    length of the mapping that is 0 exactly when the mapping is empty. *)
Theorem health_counts_are_bounded g :
  status (health_check g) = "ok"
  ∧ 0 <= index_size (health_check g)
  ∧ 0 <= products (health_check g) <= Z.of_nat (length (product_mapping g))
  ∧ (products (health_check g) = 0 ↔ product_mapping g = []).
Proof.
  unfold health_check, index_size_of, ntotal. cbn.
  split; [done|]. split; [destruct (faiss_index g); lia|].
  destruct (product_mapping g) as [|m pm]; [by repeat split|].
  unfold distinct_products.
  pose proof (size_list_to_set_le (product_id <$> m :: pm)) as Hle.
  rewrite length_fmap in Hle.
  assert (Hpos : (0 < size (list_to_set (product_id <$> m :: pm) : gset string))%nat).
  { rewrite fmap_cons, list_to_set_cons, size_union_alt, size_singleton. lia. }
  split; [lia|]. split; [lia|done].
Qed.

End StateExtras.

Section SearchAfterBuild.

Context {F : Type} `{!FloatOps F} {Price Image : Type}.
Implicit Types (w : @World F Price Image) (g : @Globals F Price).

Lemma elem_of_index_search (idx : @IndexFlatIP F) query k raw score label :
  index_search idx query k = Some raw →
  (score, label) ∈ raw →
  ∃ (i : nat) v,
    index_vectors idx !! i = Some v ∧ label = Z.of_nat i ∧ score = f_dot query v.
Proof.
  unfold index_search. destruct (_ =? _); [|done]. intros [= <-] Hin.
  eapply elem_of_sublist in Hin; [|apply sublist_take].
  rewrite elem_of_sort_desc in Hin. unfold scored in Hin.
  apply elem_of_lookup_imap_1 in Hin as (i & v & [= -> ->] & Hv).
  by exists i, v.
Qed.

(** X14. A search that follows a build which built an index, with [k]
    positive and a query image that embeds to [EMBEDDING_DIM] components,
    answers 200 with at least one match; and every match pairs one position
    of the index with the same position of the mapping: its similarity is
    the inner product of the query with the vector stored there, its
    metadata the mapping entry there. (The ranking itself is that of the
    index search as the design describes it.) *)
Theorem search_after_build_finds_products w g g' w' image k query :
  build_faiss_index w g = (Returned IndexBuilt, g') →
  0 < k →
  image_decode w' image ≫= extract_embedding w' = Some query →
  Z.of_nat (length query) = EMBEDDING_DIM →
  ∃ body idx,
    faiss_index g' = Some idx
    ∧ search_product w' g' image k = Ok200 body
    ∧ matches body ≠ []
    ∧ ∀ r, r ∈ matches body →
        ∃ (i : nat) v match_info,
          index_vectors idx !! i = Some v
          ∧ product_mapping g' !! i = Some match_info
          ∧ r = make_match (f_dot query v) match_info.
Proof.
  intros Hb Hk Hq Hd.
  destruct (build_success_matches w g g' Hb) as (Hm & idx & Hi & Hdim & Hpos).
  unfold index_matches_mapping in Hm. rewrite Hi in Hm. destruct Hm as [Hlen _].
  unfold search_product. rewrite Hi, Hq.
  destruct (index_search idx query (Z.min k (ntotal idx))) as [raw|] eqn:Hs.
  2:{ unfold index_search in Hs. rewrite Hd, Hdim, Z.eqb_refl in Hs. done. }
  assert (Hraw : ∀ score label, (score, label) ∈ raw →
            ∃ (i : nat) v match_info,
              index_vectors idx !! i = Some v
              ∧ product_mapping g' !! i = Some match_info
              ∧ label = Z.of_nat i ∧ score = f_dot query v).
  { intros score label Hin.
    destruct (elem_of_index_search idx query _ raw score label Hs Hin)
      as (i & v & Hv & -> & ->).
    assert (is_Some (product_mapping g' !! i)) as [mi Hmi].
    { apply lookup_lt_is_Some. apply lookup_lt_Some in Hv. unfold ntotal in Hlen. lia. }
    by exists i, v, mi. }
  exists {| success := true;
            matches := aggregate (product_mapping g') raw k;
            query_shape := (1, Z.of_nat (length query)) |}, idx.
  split; [done|]. split; [done|]. cbn [matches]. split.
  - (* the best raw match is in range, so it is returned *)
    assert (raw ≠ []) as Hne.
    { intros ->. unfold index_search in Hs. rewrite Hd, Hdim, Z.eqb_refl in Hs.
      injection Hs as Hs. apply (f_equal length) in Hs.
      rewrite length_take, length_sort_desc in Hs. unfold scored in Hs.
      rewrite length_imap in Hs. unfold ntotal in *. cbn in Hs. lia. }
    destruct raw as [|[score label] rest]; [done|].
    destruct (Hraw score label ltac:(by left)) as (i & v & mi & Hv & Hmi & -> & _).
    rewrite aggregate_as_take. unfold candidates. cbn [omap list_omap fst snd].
    assert (in_range (product_mapping g') (Z.of_nat i) = true) as ->.
    { unfold in_range. apply lookup_lt_Some in Hmi.
      apply negb_true_iff, orb_false_iff. split; lia. }
    rewrite Nat2Z.id, Hmi. cbn [fmap option_fmap option_map first_per_product].
    rewrite bool_decide_eq_false_2 by apply not_elem_of_empty.
    replace (Z.to_nat (Z.max k 1)) with (S (Z.to_nat (Z.max k 1) - 1)) by lia.
    done.
  - intros r Hr.
    eapply elem_of_sublist in Hr; [|apply aggregate_sublist_candidates].
    apply elem_of_candidates in Hr as (score & label & mi & Hin & _ & Hl & ->).
    destruct (Hraw score label Hin) as (i & v & mi' & Hv & Hmi & -> & ->).
    rewrite Nat2Z.id in Hl. exists i, v, mi. by repeat split.
Qed.

End SearchAfterBuild.

Section RebuildAnswer.

Context {F : Type} `{!FloatOps F} {Price Image : Type}.
Implicit Types (w : @World F Price Image) (g : @Globals F Price).

Lemma forallb_width_head (e : list F) (rest : list (list F)) (d : Z) :
  forallb (fun r => Z.of_nat (length r) =? Z.of_nat (length e)) (e :: rest) = true →
  forallb (fun v => Z.of_nat (length v) =? d) (e :: rest)
  = (Z.of_nat (length e) =? d).
Proof.
  intros Hall. destruct (Z.eqb_spec (Z.of_nat (length e)) d) as [<-|Hne].
  - exact Hall.
  - cbn. destruct (Z.eqb_spec (Z.of_nat (length e)) d); [done|reflexivity].
Qed.

Lemma forallb_width_ragged (e : list F) (rest : list (list F)) (d : Z) :
  forallb (fun r => Z.of_nat (length r) =? Z.of_nat (length e)) (e :: rest) = false →
  forallb (fun v => Z.of_nat (length v) =? d) (e :: rest) = false.
Proof.
  intros Hrag. apply not_true_iff_false. intros Hall.
  apply not_true_iff_false in Hrag. apply Hrag.
  rewrite forallb_forall in Hall. apply forallb_forall. intros v Hv.
  apply Z.eqb_eq. rewrite (proj1 (Z.eqb_eq _ _) (Hall v Hv)).
  symmetry. apply Z.eqb_eq, Hall. by left.
Qed.

(** X15. With the catalog loaded, the answer of a rebuild is this one. When
    the loop over the catalog was left by an exception: 500 with that
    exception. When it ended and every collected embedding has
    [EMBEDDING_DIM] components (none collected included): 200 with success
    true and the size of the index now held, the old one's if nothing was
    collected. Otherwise: 500, with the [ValueError] of [np.array] for rows
    of different lengths, the [AssertionError] of [index.add] for rows of
    one wrong length. *)
Theorem rebuild_answers_200_exactly_when w g catalog embeddings mapping status :
  catalog_json w = CatalogLoaded catalog →
  catalog_loop w catalog ([], []) = ((embeddings, mapping), status) →
  (rebuild_index w g).1
  = match status with
    | Some e => HTTPException 500 (DetailExn e)
    | None =>
        if forallb (fun v => Z.of_nat (length v) =? EMBEDDING_DIM) embeddings
        then Ok200 {| rebuild_success := true;
                      rebuild_index_size :=
                        match embeddings with
                        | [] => index_size_of g
                        | _ => Z.of_nat (length embeddings)
                        end |}
        else HTTPException 500
               (DetailExn match np_array embeddings with
                          | Some _ => AssertionError
                          | None => ValueError
                          end)
    end.
Proof.
  intros Hc Hloop. unfold rebuild_index, build_faiss_index. rewrite Hc, Hloop.
  destruct status as [e|]; [done|].
  destruct embeddings as [|e rest]; [done|].
  destruct (Z.eqb_spec (Z.of_nat (length (e :: rest))) 0) as [Hz|_];
    [cbn in Hz; lia|].
  unfold np_array.
  destruct (forallb (fun r => Z.of_nat (length r) =? Z.of_nat (length e)) (e :: rest))
    eqn:Hrows.
  - rewrite (forallb_width_head e rest EMBEDDING_DIM Hrows).
    unfold index_add. cbn [fst snd new_IndexFlatIP index_d index_vectors].
    by destruct (Z.of_nat (length e) =? EMBEDDING_DIM).
  - by rewrite (forallb_width_ragged e rest EMBEDDING_DIM Hrows).
Qed.

End RebuildAnswer.

Section IndexedReferences.

Context {F : Type} `{!FloatOps F} {Price Image : Type}.
Implicit Types (w : @World F Price Image) (g : @Globals F Price).

Lemma l2_normalize_length (embedding : list F) :
  length (l2_normalize embedding) = length embedding.
Proof.
  unfold l2_normalize. destruct (f_gt0 _); [apply length_fmap|done].
Qed.

Lemma build_success_refs w g g' :
  build_faiss_index w g = (Returned IndexBuilt, g') →
  ∃ catalog,
    catalog_json w = CatalogLoaded catalog
    ∧ let refs := listed_prefix w catalog ≫= spec_entry_refs w in
      g' = {| faiss_index := Some {| index_d := EMBEDDING_DIM;
                                     index_vectors := refs.*1 |};
              product_mapping := refs.*2 |}
      ∧ Forall (fun v => Z.of_nat (length v) = EMBEDDING_DIM) refs.*1.
Proof.
  unfold build_faiss_index. destruct (catalog_json w) as [| |catalog]; [done..|].
  pose proof (catalog_loop_refines w catalog ([], [])) as Hloop.
  cbn zeta in Hloop. cbn [fst snd app] in Hloop. rewrite Hloop.
  destruct (listable w catalog); [|done].
  destruct (Z.of_nat (length _) =? 0); [done|].
  destruct (np_array _) as [[width rows]|] eqn:Hnp; [|done].
  apply np_array_rows in Hnp as [-> Hrows].
  unfold index_add. cbn [fst snd new_IndexFlatIP index_d index_vectors].
  destruct (Z.eqb_spec width EMBEDDING_DIM) as [->|]; [|done].
  intros [= <-]. exists catalog. by repeat split.
Qed.

(** X16. In an index that a build has just built, position [i] of the index
    and position [i] of the mapping speak of the same file: the vector
    stored at [i] is the normalised feature vector of the image that the
    mapping entry at [i] names (under [references/<product_id>/<ref_file>]),
    and that feature vector has [EMBEDDING_DIM] components. *)
Theorem index_position_holds_embedding_of_mapped_file w g g' (i : nat) m :
  build_faiss_index w g = (Returned IndexBuilt, g') →
  product_mapping g' !! i = Some m →
  ∃ idx img raw,
    faiss_index g' = Some idx
    ∧ image_open w (PyStr.path_join (PyStr.path_join REFERENCES_DIR (product_id m))
                                    (ref_file m)) = Some img
    ∧ features w img = Some raw
    ∧ index_vectors idx !! i = Some (l2_normalize raw)
    ∧ Z.of_nat (length raw) = EMBEDDING_DIM.
Proof.
  intros Hb Hm.
  destruct (build_success_refs w g g' Hb) as (catalog & Hc & -> & Hdim).
  cbn [product_mapping faiss_index] in *.
  rewrite list_lookup_fmap in Hm.
  destruct ((listed_prefix w catalog ≫= spec_entry_refs w) !! i)
    as [[e m']|] eqn:Hi; [|done].
  cbn in Hm. injection Hm as ->.
  assert (Hin := list_elem_of_lookup_2 _ _ _ Hi).
  apply list_elem_of_bind in Hin as (product & Hin & _).
  unfold spec_entry_refs in Hin.
  destruct (fs w _) as [| |names]; [by apply elem_of_nil in Hin..|].
  apply list_elem_of_omap in Hin as (f & _ & Hsome).
  destruct (image_open w _) as [img|] eqn:Himg; [|done].
  cbn in Hsome. unfold extract_embedding in Hsome.
  destruct (features w img) as [raw|] eqn:Hraw; [|done].
  cbn in Hsome. injection Hsome as <- <-. cbn [product_id ref_file].
  exists {| index_d := EMBEDDING_DIM;
            index_vectors := (listed_prefix w catalog ≫= spec_entry_refs w).*1 |},
         img, raw.
  split; [done|]. split; [done|]. split; [done|]. cbn [index_vectors].
  assert (Hv : (listed_prefix w catalog ≫= spec_entry_refs w).*1 !! i
               = Some (l2_normalize raw)).
  { by rewrite list_lookup_fmap, Hi. }
  split; [done|].
  rewrite Forall_forall in Hdim.
  rewrite <- l2_normalize_length. apply Hdim. by eapply list_elem_of_lookup_2.
Qed.

End IndexedReferences.

(** * The further properties on the concrete deployment *)

Example aggregate_demo_zero_k :
  aggregate Demo.three_refs Demo.raw_matches 0 = [make_match 9 Demo.mug_ref].
Proof. vm_compute. reflexivity. Qed.

Lemma aggregate_complete_witness :
  Z.of_nat (length (aggregate Demo.three_refs Demo.raw_matches 5)) < 5
  ∧ (5, 2) ∈ Demo.raw_matches
  ∧ in_range Demo.three_refs 2 = true
  ∧ Demo.three_refs !! Z.to_nat 2 = Some Demo.cup_ref
  ∧ product_id Demo.cup_ref
    ∈ match_product_id <$> aggregate Demo.three_refs Demo.raw_matches 5.
Proof.
  assert (Hin : (5, 2) ∈ Demo.raw_matches).
  { do 4 apply list_elem_of_further. apply list_elem_of_here. }
  split; [reflexivity|]. split; [exact Hin|]. split; [reflexivity|].
  split; [reflexivity|].
  apply (aggregate_below_k_is_complete Demo.three_refs Demo.raw_matches 5 5 2
           Demo.cup_ref); [reflexivity|exact Hin|reflexivity|reflexivity].
Defined.

Lemma search_matches_witness :
  let w := Demo.world_with Demo.tree_both in
  let body := {| success := true;
                 matches := [make_match 1 Demo.mug_ref];
                 query_shape := (1, 576) |} in
  search_product w Demo.ready [Byte.x00] 5 = Ok200 body
  ∧ NoDup (match_product_id <$> matches body)
  ∧ Z.of_nat (length (matches body)) <= distinct_products (product_mapping Demo.ready).
Proof.
  intros w body.
  assert (Hs : search_product w Demo.ready [Byte.x00] 5 = Ok200 body)
    by (vm_compute; reflexivity).
  destruct (search_matches_come_from_mapping w Demo.ready [Byte.x00] 5 body Hs)
    as (_ & Hnd & _ & Hle).
  split; [exact Hs|]. split; [exact Hnd|exact Hle].
Defined.

Lemma mapping_origin_witness :
  let w := Demo.world_with Demo.tree_mug_only in
  catalog_json w = CatalogLoaded [Demo.mug; Demo.cup]
  ∧ Demo.mug_ref ∈ product_mapping (build_faiss_index w initial_globals).2
  ∧ ∃ product names stem suffix,
      product ∈ [Demo.mug; Demo.cup]
      ∧ product_id Demo.mug_ref = derived_id product
      ∧ product_name Demo.mug_ref = entry_name product
      ∧ price Demo.mug_ref = entry_price product
      ∧ fs w (PyStr.path_join REFERENCES_DIR (derived_id product)) = Directory names
      ∧ ref_file Demo.mug_ref ∈ names
      ∧ suffix ∈ IMAGE_SUFFIXES ∧ ref_file Demo.mug_ref = stem +:+ suffix
      ∧ is_Some (image_open w (PyStr.path_join
                                 (PyStr.path_join REFERENCES_DIR (derived_id product))
                                 (ref_file Demo.mug_ref))
                 ≫= extract_embedding w).
Proof.
  intros w.
  assert (Hin : Demo.mug_ref ∈ product_mapping (build_faiss_index w initial_globals).2).
  { replace (product_mapping (build_faiss_index w initial_globals).2)
      with [Demo.mug_ref] by (vm_compute; reflexivity).
    apply list_elem_of_here. }
  split; [reflexivity|]. split; [exact Hin|].
  apply (mapping_entries_come_from_catalog w initial_globals [Demo.mug; Demo.cup]
           Demo.mug_ref); [reflexivity|exact Hin].
Defined.

Lemma health_catalog_witness :
  let w := Demo.world_with Demo.tree_both in
  catalog_json w = CatalogLoaded [Demo.mug; Demo.cup]
  ∧ products (health_check (build_faiss_index w initial_globals).2)
    <= Z.of_nat (length [Demo.mug; Demo.cup]).
Proof.
  intros w. split; [reflexivity|].
  apply (health_products_at_most_catalog w initial_globals [Demo.mug; Demo.cup]).
  reflexivity.
Defined.

Lemma ready_consistent : consistent Demo.ready.
Proof.
  unfold consistent, index_matches_mapping. cbn.
  split; [reflexivity|]. split; [reflexivity|]. by repeat constructor.
Defined.

Lemma consistency_witness :
  let w := Demo.world_with Demo.tree_empty in
  let g' := {| faiss_index := faiss_index Demo.ready; product_mapping := [] |} in
  consistent Demo.ready
  ∧ build_faiss_index w Demo.ready = (Returned NoEmbeddings, g')
  ∧ (consistent g' ↔ (NoEmbeddings = NoEmbeddings → faiss_index Demo.ready = None)).
Proof.
  intros w g'.
  assert (Hb : build_faiss_index w Demo.ready = (Returned NoEmbeddings, g'))
    by (vm_compute; reflexivity).
  split; [exact ready_consistent|]. split; [exact Hb|].
  exact (build_keeps_consistency_but_once w Demo.ready NoEmbeddings g'
           ready_consistent Hb).
Defined.

Lemma startup_witness :
  let w := Demo.world_with Demo.tree_mug_only in
  startup_event w = (Returned IndexBuilt, Demo.ready) ∧ consistent Demo.ready.
Proof.
  intros w.
  assert (Hs : startup_event w = (Returned IndexBuilt, Demo.ready))
    by (vm_compute; reflexivity).
  split; [exact Hs|]. exact (startup_is_consistent w IndexBuilt Demo.ready Hs).
Defined.

Lemma search_after_build_witness :
  let w := Demo.world_with Demo.tree_mug_only in
  let w' := Demo.world_with Demo.tree_both in
  build_faiss_index w initial_globals = (Returned IndexBuilt, Demo.ready)
  ∧ 0 < 5
  ∧ image_decode w' [Byte.x00] ≫= extract_embedding w' = Some Demo.unit_x
  ∧ Z.of_nat (length Demo.unit_x) = EMBEDDING_DIM
  ∧ ∃ body idx,
      faiss_index Demo.ready = Some idx
      ∧ search_product w' Demo.ready [Byte.x00] 5 = Ok200 body
      ∧ matches body ≠ []
      ∧ ∀ r, r ∈ matches body →
          ∃ (i : nat) v match_info,
            index_vectors idx !! i = Some v
            ∧ product_mapping Demo.ready !! i = Some match_info
            ∧ r = make_match (f_dot Demo.unit_x v) match_info.
Proof.
  intros w w'.
  assert (Hb : build_faiss_index w initial_globals = (Returned IndexBuilt, Demo.ready))
    by (vm_compute; reflexivity).
  assert (Hq : image_decode w' [Byte.x00] ≫= extract_embedding w' = Some Demo.unit_x)
    by (vm_compute; reflexivity).
  split; [exact Hb|]. split; [lia|]. split; [exact Hq|]. split; [reflexivity|].
  apply (search_after_build_finds_products w initial_globals Demo.ready w'
           [Byte.x00] 5 Demo.unit_x Hb); [lia|exact Hq|reflexivity].
Defined.

Lemma rebuild_answer_witness :
  let w := Demo.world_with Demo.tree_cup_is_file in
  catalog_json w = CatalogLoaded [Demo.mug; Demo.cup]
  ∧ catalog_loop w [Demo.mug; Demo.cup] ([], [])
    = (([Demo.unit_x], [Demo.mug_ref]), Some NotADirectoryError)
  ∧ (rebuild_index w initial_globals).1
    = HTTPException 500 (DetailExn NotADirectoryError).
Proof.
  intros w.
  assert (Hl : catalog_loop w [Demo.mug; Demo.cup] ([], [])
               = (([Demo.unit_x], [Demo.mug_ref]), Some NotADirectoryError))
    by (vm_compute; reflexivity).
  split; [reflexivity|]. split; [exact Hl|].
  exact (rebuild_answers_200_exactly_when w initial_globals
           [Demo.mug; Demo.cup] [Demo.unit_x] [Demo.mug_ref]
           (Some NotADirectoryError) eq_refl Hl).
Defined.

Example rebuild_answer_when_built :
  (rebuild_index (Demo.world_with Demo.tree_mug_only) initial_globals).1
  = Ok200 {| rebuild_success := true; rebuild_index_size := 1 |}.
Proof. vm_compute. reflexivity. Qed.

Lemma index_position_witness :
  let w := Demo.world_with Demo.tree_mug_only in
  build_faiss_index w initial_globals = (Returned IndexBuilt, Demo.ready)
  ∧ product_mapping Demo.ready !! 0%nat = Some Demo.mug_ref
  ∧ ∃ idx img raw,
      faiss_index Demo.ready = Some idx
      ∧ image_open w (PyStr.path_join
                        (PyStr.path_join REFERENCES_DIR (product_id Demo.mug_ref))
                        (ref_file Demo.mug_ref)) = Some img
      ∧ features w img = Some raw
      ∧ index_vectors idx !! 0%nat = Some (l2_normalize raw)
      ∧ Z.of_nat (length raw) = EMBEDDING_DIM.
Proof.
  intros w.
  assert (Hb : build_faiss_index w initial_globals = (Returned IndexBuilt, Demo.ready))
    by (vm_compute; reflexivity).
  split; [exact Hb|]. split; [reflexivity|].
  apply (index_position_holds_embedding_of_mapped_file w initial_globals Demo.ready
           0 Demo.mug_ref Hb). reflexivity.
Defined.

(** * The normalisation on float32 values *)

Section Normalizer.

Context {F : Type} `{!FloatOps F}.


End Normalizer.

Example normalize_3_4_has_unit_norm :
  let v := [Binary32.three; Binary32.four] in
  let n := f_norm (l2_normalize v) in
  f_norm v = S754_finite false 10485760 (-21)
  ∧ SFleb Binary32.one_minus_tolerance n = true
  ∧ SFleb n Binary32.one_plus_tolerance = true.
Proof. vm_compute. repeat split; reflexivity. Qed.



(** * A search racing a rebuild *)

Section EventLoopFacts.

Context {F : Type} `{!FloatOps F} {Price Image : Type}.
Implicit Types (w wr ws : @World F Price Image) (g : @Globals F Price).

Lemma search_product_splits w g image k :
  search_product w g image k
  = match faiss_index g with
    | None => HTTPException 503 NOT_INITIALIZED
    | Some _ => search_after_await w g image k
    end.
Proof.
  unfold search_product, search_after_await.
  destruct (faiss_index g); [|done].
  by destruct (image_decode w image ≫= extract_embedding w).
Qed.

Lemma rebuild_keeps_an_index w g :
  is_Some (faiss_index g) → is_Some (faiss_index (rebuild_index w g).2).
Proof.
  intros Hsome.
  assert ((rebuild_index w g).2 = (build_faiss_index w g).2) as ->.
  { unfold rebuild_index. by destruct (build_faiss_index w g) as [[x|e] g1]. }
  destruct (build_index_kept_or_fresh w g) as [->|(vectors & -> & _)];
    [done|by eexists].
Qed.

(** Whatever the schedule, the search answers as it would on one state of
    the globals: the one before the rebuild or the one after it. *)
Lemma race_sees_one_snapshot s wr ws g image k :
  search_racing_rebuild s wr ws g image k = search_product ws g image k
  ∨ search_racing_rebuild s wr ws g image k
    = search_product ws (rebuild_index wr g).2 image k.
Proof.
  destruct s; cbn; [by left| |by right].
  destruct (faiss_index g) as [idx|] eqn:Hidx.
  - right. rewrite search_product_splits.
    destruct (rebuild_keeps_an_index wr g) as [idx' ->]; [by rewrite Hidx|done].
  - left. rewrite search_product_splits. by rewrite Hidx.
Qed.

(** When the rebuild builds an index, the state after it is the new index
    with its own mapping: the search sees the old version or the new one. *)
Lemma race_old_or_new_when_built s wr ws g g1 image k :
  build_faiss_index wr g = (Returned IndexBuilt, g1) →
  index_matches_mapping g1
  ∧ (search_racing_rebuild s wr ws g image k = search_product ws g image k
     ∨ search_racing_rebuild s wr ws g image k = search_product ws g1 image k).
Proof.
  intros Hb. split; [by apply (build_success_matches wr g g1)|].
  assert ((rebuild_index wr g).2 = g1) as <-.
  { unfold rebuild_index. by rewrite Hb. }
  apply race_sees_one_snapshot.
Qed.

End EventLoopFacts.

(** C1, on the trace that breaks it. The mug is indexed. The catalog
    changes (the tea cup first, the mug's reference path a plain file) and a
    rebuild is served while a search for the mug's own image is in flight.
    The rebuild appends the tea cup to the mapping, fails on the mug's path
    and answers 500: the vector of the mug is left under the mapping entry
    of the tea cup. A search that ran before the rebuild answers the mug; a
    search whose await let the rebuild in, or that came after it, answers
    the tea cup with the mug's similarity 1, which is the answer of neither
    the old index nor an index of the new catalog (that one gives the tea
    cup similarity 0). *)
Theorem search_across_aborted_rebuild_mixes_versions :
  let wr := Changed.world in
  let ws := Demo.world_with Demo.tree_both in
  let image := [Byte.x00] in
  let answer m := Ok200 {| success := true; matches := [m]; query_shape := (1, 576) |} in
  let after := (rebuild_index wr Demo.ready).2 in
  (rebuild_index wr Demo.ready).1 = HTTPException 500 (DetailExn NotADirectoryError)
  ∧ faiss_index after = faiss_index Demo.ready
  ∧ product_mapping Demo.ready = [Demo.mug_ref]
  ∧ product_mapping after = [Demo.cup_ref]
  ∧ search_racing_rebuild SearchThenRebuild wr ws Demo.ready image 5
    = answer (make_match 1 Demo.mug_ref)
  ∧ search_racing_rebuild RebuildInsideSearch wr ws Demo.ready image 5
    = answer (make_match 1 Demo.cup_ref)
  ∧ search_racing_rebuild RebuildThenSearch wr ws Demo.ready image 5
    = answer (make_match 1 Demo.cup_ref)
  ∧ search_product ws Demo.ready image 5 = answer (make_match 1 Demo.mug_ref)
  ∧ search_product ws Changed.only_cup image 5 = answer (make_match 0 Demo.cup_ref).
Proof. vm_compute. repeat split; reflexivity. Qed.
